(** * Discretization kernels of the TBB diffusion benchmark

    A shallow embedding of [cpu/tbb/discretization.c]: the Laplacian mask
    builder [set_mask], the tiled convolution [compute_convolution], the
    explicit Euler update [step_in_time], the closed-form solution
    [analytical_value] and the tiled residual reduction [check_solution].

    The kernels are written once over an arithmetic interface and read at
    two instances: IEEE binary64 (the C type [double], Rocq's primitive
    floats) and the real numbers (the arithmetic the rounding approximates).
    Statements about exact results are settled at binary64; statements
    "up to rounding" are settled over the reals. *)

From Stdlib Require Import ZArith Bool List Lia.
From Stdlib Require Import Reals Lra.
From Stdlib Require Floats.
Import ListNotations.

Set Implicit Arguments.

(* ================================================================== *)
(** * Part I: the program *)

(** ** Arithmetic of [double] *)

(** The operations the source applies to [double] values.  [of_int] is the
    implicit conversion of an [int] operand, and the literals [0.0], [1.0],
    [-2.0], [4.0] are its values at 0, 1, -2 and 4. *)
Class FloatOps (F : Type) : Type := {
  fadd : F -> F -> F;
  fsub : F -> F -> F;
  fmul : F -> F -> F;
  fdiv : F -> F -> F;
  fsqrt : F -> F;
  of_int : Z -> F
}.

(** [erf] of [<math.h>].  The C library fixes no rounding for it, so the
    binary64 instance takes it as a parameter. *)
Class Libm (F : Type) : Type := {
  erf : F -> F
}.

Declare Scope fp_scope.
Delimit Scope fp_scope with fp.
Infix "+!" := fadd (at level 50, left associativity) : fp_scope.
Infix "-!" := fsub (at level 50, left associativity) : fp_scope.
Infix "*!" := fmul (at level 40, left associativity) : fp_scope.
Infix "/!" := fdiv (at level 40, left associativity) : fp_scope.

(** *** The binary64 instance *)

(** Conversion of an [int] to [double]; exact on the 32-bit range. *)
Definition Z2double (z : Z) : PrimFloat.float :=
  match z with
  | Z0 => PrimFloat.zero
  | Zpos _ => PrimFloat.of_uint63 (Uint63.of_Z z)
  | Zneg p => PrimFloat.opp (PrimFloat.of_uint63 (Uint63.of_Z (Zpos p)))
  end.

(** Every operation rounds once, to nearest even: the code as compiled
    without contraction into fused multiply-adds. *)
#[export] Instance binary64 : FloatOps PrimFloat.float := {
  fadd := PrimFloat.add;
  fsub := PrimFloat.sub;
  fmul := PrimFloat.mul;
  fdiv := PrimFloat.div;
  fsqrt := PrimFloat.sqrt;
  of_int := Z2double
}.

Definition binary64_libm (erf64 : PrimFloat.float -> PrimFloat.float) :
  Libm PrimFloat.float :=
  {| erf := erf64 |}.

(** *** The real-number instance *)

#[export] Instance exact_ops : FloatOps R := {
  fadd := Rplus;
  fsub := Rminus;
  fmul := Rmult;
  fdiv := Rdiv;
  fsqrt := sqrt;
  of_int := IZR
}.

(** The error function, [2/sqrt(pi)] times the integral of [exp(-t^2)]
    from 0 to [x]. *)
Definition gauss (t : R) : R := exp (- (t * t)).

Lemma gauss_continuous : continuity gauss.
Proof.
  unfold gauss.
  apply (continuity_comp (fun t => - (t * t))%R exp).
  - apply continuity_opp.
    apply continuity_mult; apply derivable_continuous, derivable_id.
  - apply derivable_continuous, derivable_exp.
Qed.

Lemma gauss_integrable (x : R) : Riemann_integrable gauss 0 x.
Proof.
  destruct (Rle_dec 0 x) as [Hx | Hx].
  - apply continuity_implies_RiemannInt; [exact Hx |].
    intros t _. apply gauss_continuous.
  - apply RiemannInt_P1.
    apply continuity_implies_RiemannInt; [lra |].
    intros t _. apply gauss_continuous.
Qed.

Definition Rerf (x : R) : R :=
  (2 / sqrt PI * RiemannInt (gauss_integrable x))%R.

#[export] Instance exact_libm : Libm R := {| erf := Rerf |}.

(** ** Memory: [double**] buffers *)

(** A buffer [A] is read as [A[j][i]]: first index the row pointer, second
    the offset in the row.  The kernels never check bounds, and neither
    does the model.  A kernel's input and output buffers are distinct
    objects, as the driver passes them. *)
Definition buffer (F : Type) : Type := Z -> Z -> F.

(** The assignment [A[j][i] = v]. *)
Definition store {F} (A : buffer F) (j i : Z) (v : F) : buffer F :=
  fun j' i' => if (j' =? j)%Z && (i' =? i)%Z then v else A j' i'.

(** ** Loops *)

(** [n] iterations of a counting loop whose index starts at [k]. *)
Fixpoint iterate {S : Type} (n : nat) (k : Z) (body : Z -> S -> S) (s : S) : S :=
  match n with
  | O => s
  | Datatypes.S n' => iterate n' (k + 1)%Z body (body k s)
  end.

(** [for (k = b; k != e; k++)] and [for (k = b; k < e; k++)] on [b <= e].
    The [!=] loops of the source only run on TBB ranges, which have
    [begin <= end]; a range with [begin >= end] is empty and TBB never
    hands it to a body, which is the zero iterations taken here.  Loop
    counters and sizes are [int]s within range, modelled in [Z]. *)
Definition for_range {S : Type} (b e : Z) (body : Z -> S -> S) (s : S) : S :=
  iterate (Z.to_nat (e - b)) b body s.

(** ** The TBB ranges and algorithms the source calls *)

(** [tbb::blocked_range<int>]: the half-open interval [[begin, end)] and a
    grain size. *)
Record blocked_range : Type := {
  range_begin : Z;
  range_end : Z;
  grainsize : Z
}.

Definition range_size (r : blocked_range) : Z := range_end r - range_begin r.

(** [tbb::blocked_range2d<int>].  Its constructor takes the row interval
    first: (row_begin, row_end, row_grainsize, col_begin, col_end,
    col_grainsize). *)
Record blocked_range2d : Type := {
  rows : blocked_range;
  cols : blocked_range
}.

Definition mk_blocked_range2d (rb re rg cb ce cg : Z) : blocked_range2d :=
  {| rows := {| range_begin := rb; range_end := re; grainsize := rg |};
     cols := {| range_begin := cb; range_end := ce; grainsize := cg |} |}.

(** A recursive splitting of a range, as the scheduler performs it.  At a
    [Split] the range was cut in two; [stolen = true] when the right part
    went to another worker (for a reduction: to a body made by the
    splitting constructor, joined afterwards), [false] when the same body
    went on with it. *)
Inductive schedule : Type :=
| Tile (r : blocked_range2d)
| Split (stolen : bool) (left right : schedule).

Definition cut_low (r : blocked_range) (m : Z) : blocked_range :=
  {| range_begin := range_begin r; range_end := m; grainsize := grainsize r |}.

Definition cut_high (r : blocked_range) (m : Z) : blocked_range :=
  {| range_begin := m; range_end := range_end r; grainsize := grainsize r |}.

(** [tiling r s]: [s] cuts [r] into tiles, each cut along the rows or along
    the columns, at any position strictly inside. *)
Inductive tiling : blocked_range2d -> schedule -> Prop :=
| tiling_tile r : tiling r (Tile r)
| tiling_rows r m st a b :
    (range_begin (rows r) < m < range_end (rows r))%Z ->
    tiling {| rows := cut_low (rows r) m; cols := cols r |} a ->
    tiling {| rows := cut_high (rows r) m; cols := cols r |} b ->
    tiling r (Split st a b)
| tiling_cols r m st a b :
    (range_begin (cols r) < m < range_end (cols r))%Z ->
    tiling {| rows := rows r; cols := cut_low (cols r) m |} a ->
    tiling {| rows := rows r; cols := cut_high (cols r) m |} b ->
    tiling r (Split st a b).

(** The cuts TBB itself makes: a range is divisible when its size exceeds
    its grain size, a 2-d range when one of its sides is; the side that is
    longer relative to its grain is halved at [begin + (end - begin) / 2]. *)
Definition is_divisible (r : blocked_range) : bool :=
  (grainsize r <? range_size r)%Z.

Definition middle (r : blocked_range) : Z :=
  (range_begin r + (range_end r - range_begin r) / 2)%Z.

Definition do_split (r : blocked_range2d) : blocked_range2d * blocked_range2d :=
  if (range_size (rows r) * grainsize (cols r) <?
      range_size (cols r) * grainsize (rows r))%Z
  then ({| rows := rows r; cols := cut_low (cols r) (middle (cols r)) |},
        {| rows := rows r; cols := cut_high (cols r) (middle (cols r)) |})
  else ({| rows := cut_low (rows r) (middle (rows r)); cols := cols r |},
        {| rows := cut_high (rows r) (middle (rows r)); cols := cols r |}).

Definition blocked_range_eqb (r r' : blocked_range) : bool :=
  (range_begin r =? range_begin r')%Z && (range_end r =? range_end r')%Z
  && (grainsize r =? grainsize r')%Z.

Definition blocked_range2d_eqb (r r' : blocked_range2d) : bool :=
  blocked_range_eqb (rows r) (rows r') && blocked_range_eqb (cols r) (cols r').

Fixpoint tbb_schedule (r : blocked_range2d) (s : schedule) : bool :=
  match s with
  | Tile r' => blocked_range2d_eqb r r'
  | Split _ a b =>
      (is_divisible (rows r) || is_divisible (cols r))
      && tbb_schedule (fst (do_split r)) a
      && tbb_schedule (snd (do_split r)) b
  end.

(** A scheduler is the choice of a schedule for each range: which cuts
    are made, and which parts are stolen, is up to TBB's work stealing. *)
Definition scheduler : Type := blocked_range2d -> schedule.

(** [blocked_range::empty] and [blocked_range2d::empty]. *)
Definition range_empty (r : blocked_range) : bool :=
  negb (range_begin r <? range_end r)%Z.

Definition range2d_empty (r : blocked_range2d) : bool :=
  range_empty (rows r) || range_empty (cols r).

(** The body runs once on every tile.  The tiles are disjoint, so the
    order in which their writes land is immaterial; the model takes them
    left to right. *)
Fixpoint for_each_tile {S : Type} (body : blocked_range2d -> S -> S)
    (s : schedule) (st : S) : S :=
  match s with
  | Tile r => body r st
  | Split _ a b => for_each_tile body b (for_each_tile body a st)
  end.

(** [tbb::parallel_for (range, body)]: nothing runs on an empty range. *)
Definition parallel_for {S : Type} (sched : scheduler) (r : blocked_range2d)
    (body : blocked_range2d -> S -> S) (st : S) : S :=
  if range2d_empty r then st else for_each_tile body (sched r) st.

(** A reduction over a schedule, for a body whose only mutable member is
    the accumulator [my_rss]: a body carries its accumulator from tile to
    tile; the splitting constructor starts a fresh one at [init], and
    [join] folds it back into the left body. *)
Fixpoint reduce_tiles {F : Type} (body : blocked_range2d -> F -> F)
    (join : F -> F -> F) (init : F) (s : schedule) (my_rss : F) : F :=
  match s with
  | Tile r => body r my_rss
  | Split false a b =>
      reduce_tiles body join init b (reduce_tiles body join init a my_rss)
  | Split true a b =>
      join (reduce_tiles body join init a my_rss)
           (reduce_tiles body join init b init)
  end.

(** [tbb::parallel_reduce (range, body)]: the accumulator of [body] after
    the call. *)
Definition parallel_reduce {F : Type} (sched : scheduler)
    (r : blocked_range2d) (body : blocked_range2d -> F -> F)
    (join : F -> F -> F) (init : F) (my_rss : F) : F :=
  if range2d_empty r then my_rss
  else reduce_tiles body join init (sched r) my_rss.

(** The grain size both dimensions get in every call of the source. *)
Definition tbb_bs : Z := 16.

(** [tbb::blocked_range2d<int>(1, ny-1, tbb_bs, 1, nx-1, tbb_bs)], the
    range each of the three entry points builds. *)
Definition interior_range (nx ny : Z) : blocked_range2d :=
  mk_blocked_range2d 1 (ny - 1) tbb_bs 1 (nx - 1) tbb_bs.

(** ** The kernels *)

(** [int] expressions are computed in [Z]: the source's stay within the
    32-bit range on every grid of fewer than 46341 cells a side. *)

Section Kernels.

Context {F : Type} {ops : FloatOps F}.
Local Open Scope fp_scope.
Local Open Scope Z_scope.

(** [set_mask]: returns the value stored in [*nm] and the buffer [M]
    after the five assignments. *)
Definition set_mask (dx dy : F) (M : buffer F) : Z * buffer F :=
  let nm := 1 in
  let M := store M 0 1 (of_int 1 /! (dy *! dy)) in
  let M := store M 1 0 (of_int 1 /! (dx *! dx)) in
  let M := store M 1 1
             (of_int (-2) *! (dx *! dx +! dy *! dy) /! (dx *! dx *! dy *! dy)) in
  let M := store M 1 2 (of_int 1 /! (dx *! dx)) in
  let M := store M 2 1 (of_int 1 /! (dy *! dy)) in
  (nm, M).

(** The two inner loops of [ComputeConvolution2D::operator()]: the value
    assigned to [C[j][i]]. *)
Definition convolve_cell (A M : buffer F) (nm j i : Z) : F :=
  for_range (- nm) (nm + 1)
    (fun mj value =>
       for_range (- nm) (nm + 1)
         (fun mi value => value +! M (mj + nm) (mi + nm) *! A (j + mj) (i + mi))
         value)
    (of_int 0).

(** [ComputeConvolution2D::operator()]: [j] runs over [r.cols()], [i] over
    [r.rows()]. *)
Definition ComputeConvolution2D (A M : buffer F) (nm : Z)
    (r : blocked_range2d) (C : buffer F) : buffer F :=
  for_range (range_begin (cols r)) (range_end (cols r))
    (fun j C =>
       for_range (range_begin (rows r)) (range_end (rows r))
         (fun i C => store C j i (convolve_cell A M nm j i))
         C)
    C.

(** [compute_convolution]: returns the buffer [C]. *)
Definition compute_convolution (sched : scheduler) (A C M : buffer F)
    (nx ny nm : Z) : buffer F :=
  parallel_for sched (interior_range nx ny) (ComputeConvolution2D A M nm) C.

(** [StepInTime2D::operator()]. *)
Definition StepInTime2D (A C : buffer F) (D dt : F)
    (r : blocked_range2d) (B : buffer F) : buffer F :=
  for_range (range_begin (cols r)) (range_end (cols r))
    (fun j B =>
       for_range (range_begin (rows r)) (range_end (rows r))
         (fun i B => store B j i (A j i +! dt *! D *! C j i))
         B)
    B.

(** [step_in_time]: returns the buffer [B] and the value of [*elapsed]. *)
Definition step_in_time (sched : scheduler) (A B C : buffer F) (nx ny : Z)
    (D dt : F) (elapsed : F) : buffer F * F :=
  (parallel_for sched (interior_range nx ny) (StepInTime2D A C D dt) B,
   elapsed +! dt).

Context {libm : Libm F}.

(** [analytical_value]: the value stored in [*c]. *)
Definition analytical_value (x t D chi : F) : F :=
  chi *! (of_int 1 -! erf (x /! fsqrt (of_int 4 *! D *! t))).

(** One iteration of the inner loop of
    [ResidualSumOfSquares2D::operator()]: the term added to [sum].  [nx]
    and [ny] are the locals of that function. *)
Definition residual_term (A : buffer F) (dx dy elapsed D c : F)
    (nx ny j i : Z) : F :=
  let cn := A j i in
  let x :=
    if j <? ny ÷ 2
    then dx *! of_int (i - 1)
    else fsqrt (dx *! dx *! of_int (i - 1) *! of_int (i - 1)
                +! dy *! dy *! of_int (j - ny ÷ 2) *! of_int (j - ny ÷ 2)) in
  let cal := analytical_value x elapsed D c in
  let x :=
    if ny ÷ 2 <=? j
    then dx *! of_int (nx - 2 - i)
    else fsqrt (dx *! dx *! of_int (nx - 2 - i) *! of_int (nx - 2 - i)
                +! dy *! dy *! of_int (ny ÷ 2 - j) *! of_int (ny ÷ 2 - j)) in
  let car := analytical_value x elapsed D c in
  let ca := cal +! car in
  (ca -! cn) *! (ca -! cn) /! of_int ((nx - 2) * (ny - 2)).

(** [ResidualSumOfSquares2D::operator()]: from the accumulator [my_rss] on
    entry to the accumulator on exit.  [nx] and [ny] are taken from the
    range the body is called on. *)
Definition ResidualSumOfSquares2D (A : buffer F) (dx dy elapsed D c : F)
    (r : blocked_range2d) (my_rss : F) : F :=
  let nx := range_size (rows r) + 2 in
  let ny := range_size (cols r) + 2 in
  for_range (range_begin (cols r)) (range_end (cols r))
    (fun j sum =>
       for_range (range_begin (rows r)) (range_end (rows r))
         (fun i sum => sum +! residual_term A dx dy elapsed D c nx ny j i)
         sum)
    my_rss.

(** [ResidualSumOfSquares2D::join]. *)
Definition join (my_rss a_my_rss : F) : F := my_rss +! a_my_rss.

(** [check_solution]: the value stored in [*rss].  The body [R] is built
    with [my_rss = 0.0], and so is every body the splitting constructor
    makes.  [bc] is the array [double bc[2][2]]. *)
Definition check_solution (sched : scheduler) (A : buffer F) (nx ny : Z)
    (dx dy elapsed D : F) (bc : buffer F) : F :=
  parallel_reduce sched (interior_range nx ny)
    (ResidualSumOfSquares2D A dx dy elapsed D (bc 1 0))
    join (of_int 0) (of_int 0).

End Kernels.

(** ** The driver's time step *)

(** The comparison [x > y] of two [double]s. *)
Class FloatCmp (F : Type) : Type := {
  fgt : F -> F -> bool
}.

#[export] Instance binary64_cmp : FloatCmp PrimFloat.float := {
  fgt x y := PrimFloat.ltb y x
}.

#[export] Instance exact_cmp : FloatCmp R := {
  fgt x y := if Rlt_dec y x then true else false
}.

Section Driver.

Context {F : Type} {ops : FloatOps F} {cmp : FloatCmp F}.
Local Open Scope fp_scope.

(** [main], the mesh size: [h = (dx > dy) ? dy : dx]. *)
Definition main_h (dx dy : F) : F :=
  if fgt dx dy then dy else dx.

(** [main], the time step: [dt = (linStab * h * h) / (4.0 * D)]. *)
Definition main_dt (dx dy linStab D : F) : F :=
  let h := main_h dx dy in
  linStab *! h *! h /! (of_int 4 *! D).

End Driver.

(* ================================================================== *)
(** * Part II: the vocabulary of the statements *)

(** ** Schedulers *)

(** The scheduler that never cuts: the whole range is one tile.  It is the
    only one TBB has for a range within the grain size. *)
Definition serial : scheduler := Tile.

(** The scheduler that cuts a divisible range once, where TBB cuts it, and
    has the right part stolen. *)
Definition halving : scheduler :=
  fun r =>
    if is_divisible (rows r) || is_divisible (cols r)
    then Split true (Tile (fst (do_split r))) (Tile (snd (do_split r)))
    else Tile r.

(** The scheduler that makes the same cut and keeps both parts on the
    worker that had the range. *)
Definition halving_unstolen : scheduler :=
  fun r =>
    if is_divisible (rows r) || is_divisible (cols r)
    then Split false (Tile (fst (do_split r))) (Tile (snd (do_split r)))
    else Tile r.

(** The tiles of a schedule, left to right. *)
Fixpoint leaves (s : schedule) : list blocked_range2d :=
  match s with
  | Tile r => [r]
  | Split _ a b => leaves a ++ leaves b
  end.

(** The number of tiles of a schedule. *)
Fixpoint tiles (s : schedule) : nat :=
  match s with
  | Tile _ => 1
  | Split _ a b => tiles a + tiles b
  end.

(** The cells a body visits on the range [r]: [j] in [r.cols()], [i] in
    [r.rows()]. *)
Definition in_tile (r : blocked_range2d) (j i : Z) : Prop :=
  (range_begin (cols r) <= j < range_end (cols r))%Z /\
  (range_begin (rows r) <= i < range_end (rows r))%Z.

Definition nonempty (r : blocked_range2d) : Prop :=
  (range_begin (rows r) < range_end (rows r))%Z /\
  (range_begin (cols r) < range_end (cols r))%Z.

(** ** Buffers and masks *)

Section Vocabulary.

Context {F : Type} {ops : FloatOps F}.
Local Open Scope fp_scope.
Local Open Scope Z_scope.

(** The loop nest shared by the two writing bodies. *)
Definition fill_tile (f : Z -> Z -> F) (r : blocked_range2d)
    (C : buffer F) : buffer F :=
  for_range (range_begin (cols r)) (range_end (cols r))
    (fun j C =>
       for_range (range_begin (rows r)) (range_end (rows r))
         (fun i C => store C j i (f j i))
         C)
    C.

(** The buffer [set_mask] relies on, in the words of its comment:
    "M is initialized to zero, so corners can be ignored". *)
Definition corners_zero (M : buffer F) : Prop :=
  M 0 0 = of_int 0 /\ M 0 2 = of_int 0 /\ M 2 0 = of_int 0 /\ M 2 2 = of_int 0.

(** The sum of the [(2 nm + 1)^2] coefficients of a mask, row by row. *)
Definition mask_sum (M : buffer F) (nm : Z) : F :=
  for_range 0 (2 * nm + 1)
    (fun mj sum =>
       for_range 0 (2 * nm + 1) (fun mi sum => sum +! M mj mi) sum)
    (of_int 0).

End Vocabulary.

(** ** Binary64 values *)

(** Classes of binary64 values, read off their decoding. *)
Definition is_zero64 (x : PrimFloat.float) : bool :=
  match FloatOps.Prim2SF x with
  | SpecFloat.S754_zero _ => true
  | _ => false
  end.

Definition is_finite64 (x : PrimFloat.float) : bool :=
  match FloatOps.Prim2SF x with
  | SpecFloat.S754_zero _ | SpecFloat.S754_finite _ _ _ => true
  | _ => false
  end.

Definition is_nan64 (x : PrimFloat.float) : bool :=
  match FloatOps.Prim2SF x with
  | SpecFloat.S754_nan => true
  | _ => false
  end.

Definition is_infinity64 (x : PrimFloat.float) : bool :=
  match FloatOps.Prim2SF x with
  | SpecFloat.S754_infinity _ => true
  | _ => false
  end.

(** The doubles 0.5, 0.1 and 0.2, and two constant buffers. *)
Definition half64 : PrimFloat.float := (of_int 1 /! of_int 2)%fp.
Definition tenth64 : PrimFloat.float := (of_int 1 /! of_int 10)%fp.
Definition fifth64 : PrimFloat.float := (of_int 1 /! of_int 5)%fp.
Definition zeros64 : buffer PrimFloat.float := fun _ _ => of_int 0.
Definition ones64 : buffer PrimFloat.float := fun _ _ => of_int 1.

(** ** Sums and the residual of the specification, in exact arithmetic *)

Section ExactVocabulary.

Local Open Scope R_scope.

(** [f k + f (k+1) + ...], [n] terms. *)
Fixpoint sum_from (n : nat) (k : Z) (f : Z -> R) : R :=
  match n with
  | O => 0
  | Datatypes.S n' => f k + sum_from n' (k + 1)%Z f
  end.

(** The sum of [f k] for [lo <= k <= hi]. *)
Definition sum_over (lo hi : Z) (f : Z -> R) : R :=
  sum_from (Z.to_nat (hi - lo + 1)) lo f.

(** The stencil sum of the specification at the cell [(j, i)]. *)
Definition stencil_sum (A M : buffer R) (nm j i : Z) : R :=
  sum_over (- nm) nm
    (fun mj =>
       sum_over (- nm) nm
         (fun mi => M (mj + nm)%Z (mi + nm)%Z * A (j + mj)%Z (i + mi)%Z)).

(** Distance of the cell [(j, i)] to the left-wall source: along the wall
    in the upper half, Euclidean in the lower half. *)
Definition left_distance (ny : Z) (dx dy : R) (j i : Z) : R :=
  if (j <? ny / 2)%Z
  then dx * IZR (i - 1)
  else sqrt (dx ^ 2 * IZR (i - 1) ^ 2 + dy ^ 2 * IZR (j - ny / 2) ^ 2).

(** Distance to the right-wall source, whose half is the lower one. *)
Definition right_distance (nx ny : Z) (dx dy : R) (j i : Z) : R :=
  if (ny / 2 <=? j)%Z
  then dx * IZR (nx - 2 - i)
  else sqrt (dx ^ 2 * IZR (nx - 2 - i) ^ 2 + dy ^ 2 * IZR (ny / 2 - j) ^ 2).

(** The superposition of the two analytical solutions at a cell. *)
Definition superposition (nx ny : Z) (dx dy t D chi : R) (j i : Z) : R :=
  analytical_value (left_distance ny dx dy j i) t D chi
  + analytical_value (right_distance nx ny dx dy j i) t D chi.

(** The mean squared error over the interior cells [1 <= j <= ny-2],
    [1 <= i <= nx-2]. *)
Definition mean_squared_error (A : buffer R) (nx ny : Z)
    (dx dy t D chi : R) : R :=
  sum_over 1 (ny - 2)
    (fun j =>
       sum_over 1 (nx - 2)
         (fun i =>
            (superposition nx ny dx dy t D chi j i - A j i) ^ 2
            / IZR ((nx - 2) * (ny - 2)))).

(** The field of a quadratic polynomial in the coordinates [x = dx * i],
    [y = dy * j] of the cell [(j, i)]. *)
Definition quadratic (dx dy c0 cx cy cxx cyy cxy : R) : buffer R :=
  fun j i =>
    c0 + cx * (dx * IZR i) + cy * (dy * IZR j)
    + cxx * (dx * IZR i) ^ 2 + cyy * (dy * IZR j) ^ 2
    + cxy * (dx * IZR i) * (dy * IZR j).

(** The mask that is 1 at [M[0][0]] and 0 elsewhere. *)
Definition corner_mask : buffer R :=
  fun mj mi => if ((mj =? 0) && (mi =? 0))%Z then 1 else 0.

(** The sum of the bodies' own sums over a list of tiles. *)
Definition sum_tiles (body : blocked_range2d -> R -> R)
    (l : list blocked_range2d) : R :=
  fold_right (fun r acc => body r 0 + acc) 0 l.

(** A field that is 1 at [A[1][2]] and 0 elsewhere. *)
Definition spike_1_2 : buffer R :=
  fun j i => if ((j =? 1) && (i =? 2))%Z then 1 else 0.

End ExactVocabulary.

(* ================================================================== *)
(** * Part III: what the program does *)

(** ** Schedules *)

Lemma blocked_range_eqb_eq (r r' : blocked_range) :
  blocked_range_eqb r r' = true -> r = r'.
Proof.
  destruct r, r'. unfold blocked_range_eqb; cbn.
  rewrite !andb_true_iff, !Z.eqb_eq. intros [[-> ->] ->]. reflexivity.
Qed.

Lemma blocked_range2d_eqb_eq (r r' : blocked_range2d) :
  blocked_range2d_eqb r r' = true -> r = r'.
Proof.
  destruct r, r'. unfold blocked_range2d_eqb; cbn.
  rewrite andb_true_iff. intros [H1 H2].
  apply blocked_range_eqb_eq in H1, H2. now subst.
Qed.

(** Halving a side of at least two cells cuts strictly inside it. *)
Lemma middle_inside (r : blocked_range) :
  (2 <= range_size r)%Z -> (range_begin r < middle r < range_end r)%Z.
Proof.
  unfold range_size, middle. intros H.
  pose proof (Z.div_mod (range_end r - range_begin r) 2).
  pose proof (Z.mod_pos_bound (range_end r - range_begin r) 2).
  lia.
Qed.

(** With positive grain sizes every schedule TBB can produce is a
    tiling: the side [do_split] halves has at least two cells. *)
Lemma tbb_schedule_tiling (s : schedule) :
  forall r,
    (0 < grainsize (rows r))%Z -> (0 < grainsize (cols r))%Z ->
    tbb_schedule r s = true -> tiling r s.
Proof.
  induction s as [r' | st a IHa b IHb]; intros r Hgr Hgc Hs.
  - cbn in Hs. apply blocked_range2d_eqb_eq in Hs. subst. constructor.
  - cbn [tbb_schedule] in Hs.
    apply andb_true_iff in Hs as [Hs Hb].
    apply andb_true_iff in Hs as [Hd Ha].
    unfold do_split in Ha, Hb.
    unfold is_divisible in Hd. apply orb_true_iff in Hd.
    rewrite !Z.ltb_lt in Hd.
    destruct (Z.ltb_spec (range_size (rows r) * grainsize (cols r))
                         (range_size (cols r) * grainsize (rows r)))
      as [Hlt | Hge]; cbn [fst snd] in Ha, Hb.
    + apply tiling_cols with (m := middle (cols r)).
      * apply middle_inside. nia.
      * apply IHa; [assumption | assumption | exact Ha].
      * apply IHb; [assumption | assumption | exact Hb].
    + apply tiling_rows with (m := middle (rows r)).
      * apply middle_inside. nia.
      * apply IHa; [assumption | assumption | exact Ha].
      * apply IHb; [assumption | assumption | exact Hb].
Qed.

(** A range within the grain size on both sides is run whole. *)
Lemma tbb_schedule_indivisible (r : blocked_range2d) (s : schedule) :
  is_divisible (rows r) = false -> is_divisible (cols r) = false ->
  tbb_schedule r s = true -> s = Tile r.
Proof.
  intros Hr Hc. destruct s as [r' | st a b]; cbn [tbb_schedule].
  - intros H. apply blocked_range2d_eqb_eq in H. now subst.
  - rewrite Hr, Hc. discriminate.
Qed.

Lemma serial_tiling (r : blocked_range2d) : tiling r (serial r).
Proof. constructor. Qed.

Lemma halving_tbb_schedule (r : blocked_range2d) :
  tbb_schedule r (halving r) = true.
Proof.
  unfold halving.
  destruct (is_divisible (rows r) || is_divisible (cols r)) eqn:Hd;
    cbn [tbb_schedule].
  - rewrite Hd. unfold blocked_range2d_eqb, blocked_range_eqb.
    now rewrite !Z.eqb_refl.
  - unfold blocked_range2d_eqb, blocked_range_eqb. now rewrite !Z.eqb_refl.
Qed.

Lemma in_tile_not_empty (r : blocked_range2d) (j i : Z) :
  in_tile r j i -> range2d_empty r = false.
Proof.
  intros [Hj Hi]. unfold range2d_empty, range_empty.
  apply orb_false_iff. rewrite !negb_false_iff, !Z.ltb_lt. lia.
Qed.

Lemma nonempty_not_empty (r : blocked_range2d) :
  nonempty r -> range2d_empty r = false.
Proof.
  intros [Hr Hc]. unfold range2d_empty, range_empty.
  apply orb_false_iff. rewrite !negb_false_iff, !Z.ltb_lt. lia.
Qed.

(** ** Loops that fill a tile *)

Section Tiles.

Context {F : Type}.
Local Open Scope Z_scope.

Lemma store_same (A : buffer F) j i v : store A j i v j i = v.
Proof. unfold store. now rewrite !Z.eqb_refl. Qed.

Lemma store_other (A : buffer F) j i v j' i' :
  j' <> j \/ i' <> i -> store A j i v j' i' = A j' i'.
Proof.
  intros H. unfold store.
  destruct (Z.eqb_spec j' j), (Z.eqb_spec i' i); simpl; try reflexivity.
  lia.
Qed.

Lemma fill_row (f : Z -> Z -> F) (j : Z) (n : nat) :
  forall (k : Z) (C : buffer F) (j' i' : Z),
    ((j' = j /\ k <= i' < k + Z.of_nat n) ->
       iterate n k (fun i C => store C j i (f j i)) C j' i' = f j' i') /\
    (~ (j' = j /\ k <= i' < k + Z.of_nat n) ->
       iterate n k (fun i C => store C j i (f j i)) C j' i' = C j' i').
Proof.
  induction n as [| n IH]; intros k C j' i'.
  - simpl. split; intros; try reflexivity. lia.
  - cbn [iterate].
    destruct (IH (k + 1) (store C j k (f j k)) j' i') as (Hin & Hout).
    split.
    + intros [-> Hi].
      destruct (Z.eq_dec i' k) as [-> | Hne].
      * rewrite Hout by lia. apply store_same.
      * apply Hin. lia.
    + intros Hn. rewrite Hout by lia.
      apply store_other. lia.
Qed.

Lemma fill_rows (f : Z -> Z -> F) (b e : Z) (n : nat) :
  forall (k : Z) (C : buffer F) (j' i' : Z),
    let body := fun j C =>
      for_range b e (fun i C => store C j i (f j i)) C in
    ((k <= j' < k + Z.of_nat n /\ b <= i' < e) ->
       iterate n k body C j' i' = f j' i') /\
    (~ (k <= j' < k + Z.of_nat n /\ b <= i' < e) ->
       iterate n k body C j' i' = C j' i').
Proof.
  induction n as [| n IH]; intros k C j' i' body.
  - simpl. split; intros; try reflexivity. lia.
  - cbn [iterate].
    destruct (IH (k + 1) (body k C) j' i') as (Hin & Hout).
    destruct (fill_row f k (Z.to_nat (e - b)) b C j' i') as (Rin & Rout).
    fold body in Hin, Hout.
    split.
    + intros [Hj Hi].
      destruct (Z.eq_dec j' k) as [-> | Hne].
      * rewrite Hout by lia. unfold body, for_range.
        apply Rin. lia.
      * apply Hin. lia.
    + intros Hn. rewrite Hout by lia.
      unfold body, for_range. apply Rout. lia.
Qed.

(** What a tile's loop nest leaves in the buffer. *)
Lemma fill_tile_in (f : Z -> Z -> F) r C j i :
  in_tile r j i -> fill_tile f r C j i = f j i.
Proof.
  intros [Hj Hi]. unfold fill_tile, for_range at 1.
  apply fill_rows. lia.
Qed.

Lemma fill_tile_out (f : Z -> Z -> F) r C j i :
  ~ in_tile r j i -> fill_tile f r C j i = C j i.
Proof.
  intros Hn. unfold fill_tile, for_range at 1.
  apply fill_rows. unfold in_tile in Hn. lia.
Qed.

(** Whatever the tiling, the tiles leave [f j i] in every cell of the
    range and nothing anywhere else. *)
Lemma for_each_tile_fill (f : Z -> Z -> F) R s :
  tiling R s ->
  forall C j i,
    (in_tile R j i -> for_each_tile (fill_tile f) s C j i = f j i) /\
    (~ in_tile R j i -> for_each_tile (fill_tile f) s C j i = C j i).
Proof.
  induction 1 as [r | r m st a b Hm _ IHa _ IHb | r m st a b Hm _ IHa _ IHb];
    intros C j i.
  - split; [apply fill_tile_in | apply fill_tile_out].
  - cbn [for_each_tile].
    destruct (IHa C j i) as [Ain Aout].
    destruct (IHb (for_each_tile (fill_tile f) a C) j i) as [Bin Bout].
    unfold in_tile in *; cbn in *.
    split; intros Hc.
    + destruct (Z_lt_ge_dec i m).
      * rewrite Bout by lia. apply Ain. lia.
      * apply Bin. lia.
    + rewrite Bout by lia. apply Aout. lia.
  - cbn [for_each_tile].
    destruct (IHa C j i) as [Ain Aout].
    destruct (IHb (for_each_tile (fill_tile f) a C) j i) as [Bin Bout].
    unfold in_tile in *; cbn in *.
    split; intros Hc.
    + destruct (Z_lt_ge_dec j m).
      * rewrite Bout by lia. apply Ain. lia.
      * apply Bin. lia.
    + rewrite Bout by lia. apply Aout. lia.
Qed.

Lemma parallel_for_in (f : Z -> Z -> F) sched R C j i :
  tiling R (sched R) -> in_tile R j i ->
  parallel_for sched R (fill_tile f) C j i = f j i.
Proof.
  intros Hs Hin. unfold parallel_for.
  rewrite (in_tile_not_empty Hin).
  now apply (for_each_tile_fill f Hs).
Qed.

Lemma parallel_for_out (f : Z -> Z -> F) sched R C j i :
  tiling R (sched R) -> ~ in_tile R j i ->
  parallel_for sched R (fill_tile f) C j i = C j i.
Proof.
  intros Hs Hout. unfold parallel_for.
  destruct (range2d_empty R); [reflexivity |].
  now apply (for_each_tile_fill f Hs).
Qed.

End Tiles.

(** ** The writing kernels: convolution and time step *)

Section WritingKernels.

Context {F : Type} {ops : FloatOps F}.
Local Open Scope fp_scope.
Local Open Scope Z_scope.

Lemma ComputeConvolution2D_fill (A M : buffer F) nm :
  ComputeConvolution2D A M nm = fill_tile (convolve_cell A M nm).
Proof. reflexivity. Qed.

Lemma StepInTime2D_fill (A C : buffer F) D dt :
  StepInTime2D A C D dt = fill_tile (fun j i => A j i +! dt *! D *! C j i).
Proof. reflexivity. Qed.

(** The cells [compute_convolution] writes: the first index runs over
    [1 .. nx-2], the second over [1 .. ny-2]. *)
Lemma compute_convolution_written sched (A C M : buffer F) nx ny nm j i :
  tiling (interior_range nx ny) (sched (interior_range nx ny)) ->
  1 <= j <= nx - 2 -> 1 <= i <= ny - 2 ->
  compute_convolution sched A C M nx ny nm j i = convolve_cell A M nm j i.
Proof.
  intros Hs Hj Hi. unfold compute_convolution.
  rewrite ComputeConvolution2D_fill.
  apply parallel_for_in; [exact Hs |]. unfold in_tile; cbn. lia.
Qed.

Lemma compute_convolution_untouched sched (A C M : buffer F) nx ny nm j i :
  tiling (interior_range nx ny) (sched (interior_range nx ny)) ->
  ~ (1 <= j <= nx - 2 /\ 1 <= i <= ny - 2) ->
  compute_convolution sched A C M nx ny nm j i = C j i.
Proof.
  intros Hs Hn. unfold compute_convolution.
  rewrite ComputeConvolution2D_fill.
  apply parallel_for_out; [exact Hs |]. unfold in_tile; cbn. lia.
Qed.

(** On a square grid the written cells are the interior cells. *)
Lemma compute_convolution_square sched (A C M : buffer F) n nm j i :
  tiling (interior_range n n) (sched (interior_range n n)) ->
  1 <= j <= n - 2 -> 1 <= i <= n - 2 ->
  compute_convolution sched A C M n n nm j i = convolve_cell A M nm j i.
Proof. intros. now apply compute_convolution_written. Qed.

Lemma step_in_time_written sched (A B C : buffer F) nx ny D dt elapsed j i :
  tiling (interior_range nx ny) (sched (interior_range nx ny)) ->
  1 <= j <= nx - 2 -> 1 <= i <= ny - 2 ->
  fst (step_in_time sched A B C nx ny D dt elapsed) j i =
  A j i +! dt *! D *! C j i.
Proof.
  intros Hs Hj Hi. unfold step_in_time; cbn [fst].
  rewrite StepInTime2D_fill.
  apply (parallel_for_in (fun j i => A j i +! dt *! D *! C j i));
    [exact Hs |].
  unfold in_tile; cbn. lia.
Qed.

Lemma step_in_time_untouched sched (A B C : buffer F) nx ny D dt elapsed j i :
  tiling (interior_range nx ny) (sched (interior_range nx ny)) ->
  ~ (1 <= j <= nx - 2 /\ 1 <= i <= ny - 2) ->
  fst (step_in_time sched A B C nx ny D dt elapsed) j i = B j i.
Proof.
  intros Hs Hn. unfold step_in_time; cbn [fst].
  rewrite StepInTime2D_fill.
  apply parallel_for_out; [exact Hs |]. unfold in_tile; cbn. lia.
Qed.

(** [*elapsed] grows by [dt], once, whatever the grid and the schedule. *)
Lemma step_in_time_elapsed sched (A B C : buffer F) nx ny D dt elapsed :
  snd (step_in_time sched A B C nx ny D dt elapsed) = elapsed +! dt.
Proof. reflexivity. Qed.

(** On a square grid [step_in_time] is the update of the interior. *)
Lemma step_in_time_square sched (A B C : buffer F) n D dt elapsed j i :
  tiling (interior_range n n) (sched (interior_range n n)) ->
  1 <= j <= n - 2 -> 1 <= i <= n - 2 ->
  fst (step_in_time sched A B C n n D dt elapsed) j i =
  A j i +! dt *! D *! C j i.
Proof. intros. now apply step_in_time_written. Qed.

(** The range of a 4 x 3 grid ([nx = 4], [ny = 3]) is within the grain
    size: the only schedule TBB has for it is the whole range. *)
Lemma interior_4_3_whole (s : schedule) :
  tbb_schedule (interior_range 4 3) s = true -> s = serial (interior_range 4 3).
Proof. apply tbb_schedule_indivisible; reflexivity. Qed.

(** C3, at [nx = 4], [ny = 3], [nm = 1]: the interior cell [C[1][2]] is
    not written (it keeps what the buffer held), while [C[2][1]], a cell
    of the bottom halo row, receives a stencil sum.  The body takes [j]
    from [r.cols()] (built from [nx]) and [i] from [r.rows()] (built from
    [ny]). *)
Theorem compute_convolution_4_3 (A C M : buffer F) :
  compute_convolution serial A C M 4 3 1 1 2 = C 1 2 /\
  compute_convolution serial A C M 4 3 1 2 1 = convolve_cell A M 1 2 1.
Proof.
  split.
  - apply compute_convolution_untouched; [apply serial_tiling | lia].
  - apply compute_convolution_written; [apply serial_tiling | lia | lia].
Qed.

(** C4, at [nx = 4], [ny = 3]: [*elapsed] grows by [dt], the interior
    cell [B[1][2]] is not written, and the halo cell [B[2][1]] is. *)
Theorem step_in_time_4_3 (A B C : buffer F) (D dt elapsed : F) :
  snd (step_in_time serial A B C 4 3 D dt elapsed) = elapsed +! dt /\
  fst (step_in_time serial A B C 4 3 D dt elapsed) 1 2 = B 1 2 /\
  fst (step_in_time serial A B C 4 3 D dt elapsed) 2 1 =
    A 2 1 +! dt *! D *! C 2 1.
Proof.
  split; [reflexivity | split].
  - apply step_in_time_untouched; [apply serial_tiling | lia].
  - apply step_in_time_written; [apply serial_tiling | lia | lia].
Qed.

End WritingKernels.

(** ** The stencil mask *)

Section Mask.

Context {F : Type} {ops : FloatOps F}.
Local Open Scope fp_scope.
Local Open Scope Z_scope.

(** [set_mask] assigns five entries and leaves every other one alone. *)
Lemma set_mask_untouched (dx dy : F) (M : buffer F) (j i : Z) :
  (j, i) <> (0, 1) -> (j, i) <> (1, 0) -> (j, i) <> (1, 1) ->
  (j, i) <> (1, 2) -> (j, i) <> (2, 1) ->
  snd (set_mask dx dy M) j i = M j i.
Proof.
  intros H1 H2 H3 H4 H5. unfold set_mask; cbn [snd].
  rewrite !store_other; try reflexivity.
  all: destruct (Z.eq_dec j 0), (Z.eq_dec j 1), (Z.eq_dec j 2),
         (Z.eq_dec i 0), (Z.eq_dec i 1), (Z.eq_dec i 2); subst;
       try lia; try congruence.
Qed.

Lemma set_mask_corners (dx dy : F) (M : buffer F) :
  snd (set_mask dx dy M) 0 0 = M 0 0 /\ snd (set_mask dx dy M) 0 2 = M 0 2 /\
  snd (set_mask dx dy M) 2 0 = M 2 0 /\ snd (set_mask dx dy M) 2 2 = M 2 2.
Proof. repeat split. Qed.

Lemma set_mask_assigned (dx dy : F) (M : buffer F) :
  snd (set_mask dx dy M) 1 1 =
    of_int (-2) *! (dx *! dx +! dy *! dy) /! (dx *! dx *! dy *! dy) /\
  snd (set_mask dx dy M) 0 1 = of_int 1 /! (dy *! dy) /\
  snd (set_mask dx dy M) 2 1 = of_int 1 /! (dy *! dy) /\
  snd (set_mask dx dy M) 1 0 = of_int 1 /! (dx *! dx) /\
  snd (set_mask dx dy M) 1 2 = of_int 1 /! (dx *! dx).
Proof. repeat split. Qed.

(** C5, as the code has it: the radius is 1, the centre and the four
    orthogonal neighbours get the Laplacian coefficients, and the corners
    are zero when the buffer handed in had them zero. *)
Theorem set_mask_coefficients (dx dy : F) (M : buffer F) :
  corners_zero M ->
  fst (set_mask dx dy M) = 1 /\
  snd (set_mask dx dy M) 1 1 =
    of_int (-2) *! (dx *! dx +! dy *! dy) /! (dx *! dx *! dy *! dy) /\
  snd (set_mask dx dy M) 0 1 = of_int 1 /! (dy *! dy) /\
  snd (set_mask dx dy M) 2 1 = of_int 1 /! (dy *! dy) /\
  snd (set_mask dx dy M) 1 0 = of_int 1 /! (dx *! dx) /\
  snd (set_mask dx dy M) 1 2 = of_int 1 /! (dx *! dx) /\
  snd (set_mask dx dy M) 0 0 = of_int 0 /\
  snd (set_mask dx dy M) 0 2 = of_int 0 /\
  snd (set_mask dx dy M) 2 0 = of_int 0 /\
  snd (set_mask dx dy M) 2 2 = of_int 0.
Proof.
  intros (H00 & H02 & H20 & H22).
  destruct (set_mask_assigned dx dy M) as (A11 & A01 & A21 & A10 & A12).
  destruct (set_mask_corners dx dy M) as (C00 & C02 & C20 & C22).
  split; [reflexivity |].
  split; [exact A11 | split; [exact A01 | split; [exact A21 |]]].
  split; [exact A10 | split; [exact A12 |]].
  rewrite C00, C02, C20, C22. now rewrite H00, H02, H20, H22.
Qed.

End Mask.

(** Binary64 values are told apart by their decoding. *)
Ltac float_discriminate :=
  let H := fresh in
  intro H; apply (f_equal FloatOps.Prim2SF) in H; vm_compute in H; discriminate H.

(** [set_mask] at [dx = dy = 0.5] on a zeroed buffer, in binary64. *)
Lemma set_mask_coefficients_half :
  corners_zero zeros64 /\
  fst (set_mask half64 half64 zeros64) = 1%Z /\
  snd (set_mask half64 half64 zeros64) 1%Z 1%Z = of_int (-16) /\
  snd (set_mask half64 half64 zeros64) 0%Z 1%Z = of_int 4 /\
  snd (set_mask half64 half64 zeros64) 2%Z 2%Z = of_int 0.
Proof.
  assert (Hc : corners_zero zeros64) by (repeat split).
  split; [exact Hc |].
  destruct (set_mask_coefficients half64 half64 Hc)
    as (H1 & H2 & H3 & _ & _ & _ & _ & _ & _ & H4).
  split; [exact H1 | split; [exact H2 | split; [exact H3 | exact H4]]].
Defined.

(** C5 as stated fails on a buffer that was not cleared: [set_mask] at
    [dx = dy = 1] on a buffer of ones leaves the corner [M[0][0]] at 1. *)
Lemma set_mask_keeps_corner :
  snd (set_mask (of_int 1) (of_int 1) ones64) 0%Z 0%Z <> of_int 0.
Proof. float_discriminate. Qed.

(** ** Accumulating loops *)

Lemma iterate_ext {S : Type} (f g : Z -> S -> S) (n : nat) :
  (forall k s, f k s = g k s) ->
  forall k s, iterate n k f s = iterate n k g s.
Proof.
  intros Hfg. induction n as [| n IH]; intros k s; cbn [iterate].
  - reflexivity.
  - rewrite Hfg. apply IH.
Qed.

Section ExactSums.

Local Open Scope R_scope.

Lemma sum_from_ext (f g : Z -> R) (n : nat) :
  (forall k, f k = g k) -> forall k, sum_from n k f = sum_from n k g.
Proof.
  intros Hfg. induction n as [| n IH]; intros k; cbn [sum_from].
  - reflexivity.
  - now rewrite Hfg, IH.
Qed.

Lemma sum_from_const (c : R) (n : nat) :
  forall k, sum_from n k (fun _ => c) = INR n * c.
Proof.
  induction n as [| n IH]; intros k.
  - cbn. ring.
  - cbn [sum_from]. rewrite IH, S_INR. ring.
Qed.

(** An accumulating loop in exact arithmetic adds the sum of its terms. *)
Lemma iterate_sum (f : Z -> R) (n : nat) :
  forall k acc, iterate n k (fun k sum => sum + f k) acc = acc + sum_from n k f.
Proof.
  induction n as [| n IH]; intros k acc; cbn [iterate sum_from].
  - ring.
  - rewrite IH. ring.
Qed.

Lemma iterate_sum2 (f : Z -> Z -> R) (n m : nat) (k0 : Z) :
  forall k acc,
    iterate n k (fun j sum => iterate m k0 (fun i sum => sum + f j i) sum) acc =
    acc + sum_from n k (fun j => sum_from m k0 (f j)).
Proof.
  induction n as [| n IH]; intros k acc; cbn [iterate sum_from].
  - ring.
  - rewrite IH, iterate_sum. ring.
Qed.

End ExactSums.

(** ** The mask and the convolution in exact arithmetic *)

Section ExactMask.

Local Open Scope R_scope.

(** In exact arithmetic [convolve_cell] is the stencil sum of the
    specification, for every radius. *)
Lemma convolve_cell_stencil_sum (A M : buffer R) (nm j i : Z) :
  convolve_cell A M nm j i = stencil_sum A M nm j i.
Proof.
  unfold convolve_cell, stencil_sum, sum_over, for_range.
  replace (nm - - nm + 1)%Z with (nm + 1 - - nm)%Z by lia.
  rewrite (iterate_sum2
             (fun mj mi => M (mj + nm)%Z (mi + nm)%Z * A (j + mj)%Z (i + mi)%Z)).
  cbn [of_int exact_ops]. ring.
Qed.

(** On a square grid every interior cell receives the stencil sum. *)
Lemma compute_convolution_stencil_sum sched (A C M : buffer R) n nm j i :
  tiling (interior_range n n) (sched (interior_range n n)) ->
  (1 <= j <= n - 2)%Z -> (1 <= i <= n - 2)%Z ->
  compute_convolution sched A C M n n nm j i = stencil_sum A M nm j i.
Proof.
  intros. rewrite compute_convolution_square by assumption.
  apply convolve_cell_stencil_sum.
Qed.

(** The nine coefficients in exact arithmetic, read off the buffer. *)
Lemma mask_sum_exact (dx dy : R) (M : buffer R) :
  mask_sum (snd (set_mask dx dy M)) (fst (set_mask dx dy M)) =
  0 + M 0%Z 0%Z + 1 / (dy * dy) + M 0%Z 2%Z
    + 1 / (dx * dx) + -2 * (dx * dx + dy * dy) / (dx * dx * dy * dy)
    + 1 / (dx * dx)
    + M 2%Z 0%Z + 1 / (dy * dy) + M 2%Z 2%Z.
Proof. reflexivity. Qed.

(** C6, as the code has it: in exact arithmetic the nine coefficients sum
    to zero when the buffer handed to [set_mask] had zero corners: the
    centre cancels the four orthogonal neighbours. *)
Theorem mask_sum_cancels (dx dy : R) (M : buffer R) :
  0 < dx -> 0 < dy -> corners_zero M ->
  mask_sum (snd (set_mask dx dy M)) (fst (set_mask dx dy M)) = 0.
Proof.
  intros Hdx Hdy (H00 & H02 & H20 & H22).
  rewrite mask_sum_exact, H00, H02, H20, H22. cbn [of_int exact_ops].
  field. split; lra.
Qed.

Lemma mask_sum_cancels_unit :
  0 < 1 /\ 0 < 1 /\ corners_zero (fun _ _ => 0) /\
  mask_sum (snd (set_mask 1 1 (fun _ _ => 0)))
           (fst (set_mask 1 1 (fun _ _ => 0))) = 0.
Proof.
  assert (Hc : corners_zero (fun _ _ : Z => 0)) by (repeat split).
  split; [lra | split; [lra | split; [exact Hc |]]].
  apply (@mask_sum_cancels 1 1 (fun _ _ => 0)); [lra | lra | exact Hc].
Defined.

(** C6 as stated fails on a buffer that was not cleared: on a buffer of
    ones the four corners stay and the coefficients sum to 4. *)
Lemma mask_sum_uncleared :
  mask_sum (snd (set_mask 1 1 (fun _ _ => 1)))
           (fst (set_mask 1 1 (fun _ _ => 1))) <> 0.
Proof. rewrite mask_sum_exact. lra. Qed.

(** The stencil sum of [convolve_cell] at radius 1, term by term. *)
Lemma convolve_cell_exact (A M : buffer R) (j i : Z) :
  convolve_cell A M 1 j i =
  0 + M 0%Z 0%Z * A (j - 1)%Z (i - 1)%Z + M 0%Z 1%Z * A (j - 1)%Z i
    + M 0%Z 2%Z * A (j - 1)%Z (i + 1)%Z
    + M 1%Z 0%Z * A j (i - 1)%Z + M 1%Z 1%Z * A j i
    + M 1%Z 2%Z * A j (i + 1)%Z
    + M 2%Z 0%Z * A (j + 1)%Z (i - 1)%Z + M 2%Z 1%Z * A (j + 1)%Z i
    + M 2%Z 2%Z * A (j + 1)%Z (i + 1)%Z.
Proof.
  unfold convolve_cell, for_range.
  change (Z.to_nat (1 + 1 - - (1))) with 3%nat. cbn.
  replace (j + -1)%Z with (j - 1)%Z by lia.
  replace (i + -1)%Z with (i - 1)%Z by lia.
  rewrite !Z.add_0_r. reflexivity.
Qed.

(** C7, as the code has it: on a square grid, with the mask [set_mask]
    builds on a buffer with zero corners, the convolution of a constant
    field is zero at every interior cell in exact arithmetic. *)
Theorem convolution_of_constant_exact (n : Z) (dx dy a : R)
    (A C M : buffer R) (sched : scheduler) (j i : Z) :
  0 < dx -> 0 < dy -> corners_zero M ->
  (forall j' i', A j' i' = a) ->
  tiling (interior_range n n) (sched (interior_range n n)) ->
  (1 <= j <= n - 2)%Z -> (1 <= i <= n - 2)%Z ->
  compute_convolution sched A C (snd (set_mask dx dy M)) n n
    (fst (set_mask dx dy M)) j i = 0.
Proof.
  intros Hdx Hdy (H00 & H02 & H20 & H22) HA Hs Hj Hi.
  rewrite compute_convolution_square by assumption.
  change (fst (set_mask dx dy M)) with 1%Z.
  rewrite convolve_cell_exact, !HA.
  destruct (set_mask_assigned dx dy M) as (-> & -> & -> & -> & ->).
  destruct (set_mask_corners dx dy M) as (-> & -> & -> & ->).
  rewrite H00, H02, H20, H22.
  cbn [of_int exact_ops fadd fmul fdiv].
  field. split; lra.
Qed.

Lemma convolution_of_constant_exact_unit :
  0 < 1 /\ 0 < 1 /\ corners_zero (fun _ _ => 0) /\
  (forall j' i' : Z, (fun _ _ : Z => 1) j' i' = 1) /\
  tiling (interior_range 3 3) (serial (interior_range 3 3)) /\
  (1 <= 1 <= 3 - 2)%Z /\ (1 <= 1 <= 3 - 2)%Z /\
  compute_convolution serial (fun _ _ => 1)
    (fun _ _ => 7) (snd (set_mask 1 1 (fun _ _ => 0))) 3 3
    (fst (set_mask 1 1 (fun _ _ => 0))) 1%Z 1%Z = 0.
Proof.
  assert (Hc : corners_zero (fun _ _ : Z => 0)) by (repeat split).
  assert (Ht : tiling (interior_range 3 3) (serial (interior_range 3 3)))
    by apply serial_tiling.
  split; [lra | split; [lra | split; [exact Hc |]]].
  split; [reflexivity | split; [exact Ht | split; [lia | split; [lia |]]]].
  apply (@convolution_of_constant_exact 3 1 1 1 (fun _ _ => 1) (fun _ _ => 7)
           (fun _ _ => 0) serial 1 1);
    [lra | lra | exact Hc | reflexivity | exact Ht | lia | lia].
Defined.

End ExactMask.

(** ** The mask and the convolution in binary64 *)

(** At [dx = dy = 0.5] every operation is exact and the binary64
    coefficients sum to zero. *)
Lemma mask_sum_half64 :
  mask_sum (snd (set_mask half64 half64 zeros64))
           (fst (set_mask half64 half64 zeros64)) = of_int 0.
Proof. vm_compute. reflexivity. Qed.

(** At [dx = 0.1], [dy = 0.2] rounding leaves [-2^-48]. *)
Lemma mask_sum_tenth64 :
  mask_sum (snd (set_mask tenth64 fifth64 zeros64))
           (fst (set_mask tenth64 fifth64 zeros64)) =
  (of_int (-1) /! of_int (2 ^ 48))%fp.
Proof. vm_compute. reflexivity. Qed.

(** The same residue is what the convolution of the constant field 1
    leaves at the interior cell of a 3 x 3 grid. *)
Lemma convolution_of_ones_tenth64 :
  compute_convolution serial ones64 zeros64
    (snd (set_mask tenth64 fifth64 zeros64)) 3 3
    (fst (set_mask tenth64 fifth64 zeros64)) 1%Z 1%Z =
  (of_int (-1) /! of_int (2 ^ 48))%fp.
Proof. vm_compute. reflexivity. Qed.

(** C7 as stated fails in binary64: with [dx = 0.1], [dy = 0.2] and the
    field constant 1, the interior cell of a 3 x 3 grid is not zero. *)
Lemma convolution_of_constant_rounds :
  compute_convolution serial ones64 zeros64
    (snd (set_mask tenth64 fifth64 zeros64)) 3 3
    (fst (set_mask tenth64 fifth64 zeros64)) 1%Z 1%Z <> of_int 0.
Proof. float_discriminate. Qed.

(** ** The time step at zero diffusivity, in binary64 *)

(** A finite value times a zero is a zero. *)
Lemma mul_finite_zero (x z : PrimFloat.float) :
  is_finite64 x = true -> is_zero64 z = true ->
  is_zero64 (PrimFloat.mul x z) = true.
Proof.
  unfold is_finite64, is_zero64. rewrite FloatAxioms.mul_spec.
  destruct (FloatOps.Prim2SF x), (FloatOps.Prim2SF z);
    intros Hx Hz; try discriminate; reflexivity.
Qed.

Lemma mul_zero_finite (z x : PrimFloat.float) :
  is_zero64 z = true -> is_finite64 x = true ->
  is_zero64 (PrimFloat.mul z x) = true.
Proof.
  unfold is_finite64, is_zero64. rewrite FloatAxioms.mul_spec.
  destruct (FloatOps.Prim2SF x), (FloatOps.Prim2SF z);
    intros Hz Hx; try discriminate; reflexivity.
Qed.

(** Adding a zero changes nothing but, possibly, the sign of a zero. *)
Lemma add_zero_same (x z : PrimFloat.float) :
  is_zero64 z = true -> is_zero64 x = false -> PrimFloat.add x z = x.
Proof.
  unfold is_zero64. intros Hz Hx.
  apply FloatAxioms.Prim2SF_inj. rewrite FloatAxioms.add_spec.
  destruct (FloatOps.Prim2SF x) as [sx | sx | | sx mx ex],
           (FloatOps.Prim2SF z) as [sz | sz | | sz mz ez];
    try discriminate; reflexivity.
Qed.

Lemma SFcompare_refl (x : SpecFloat.spec_float) :
  x <> SpecFloat.S754_nan -> SpecFloat.SFcompare x x = Some Eq.
Proof.
  destruct x as [s | s | | s m e]; intros Hx; cbn.
  - reflexivity.
  - now destruct s.
  - congruence.
  - rewrite Z.compare_refl. unfold Pos.compare.
    destruct s; rewrite Pos.compare_cont_refl; reflexivity.
Qed.

Lemma add_zero_equal (x z : PrimFloat.float) :
  is_zero64 z = true -> is_nan64 x = false ->
  PrimFloat.eqb (PrimFloat.add x z) x = true.
Proof.
  unfold is_zero64, is_nan64. intros Hz Hx.
  rewrite FloatAxioms.eqb_spec, FloatAxioms.add_spec.
  unfold SpecFloat.SFeqb.
  destruct (FloatOps.Prim2SF z) as [sz | sz | | sz mz ez]; try discriminate.
  destruct (FloatOps.Prim2SF x) as [sx | sx | | sx mx ex] eqn:Ex;
    try discriminate.
  - now destruct sx, sz.
  - now destruct sx.
  - change (FloatAxioms.SF64add (SpecFloat.S754_finite sx mx ex)
              (SpecFloat.S754_zero sz))
      with (SpecFloat.S754_finite sx mx ex).
    now rewrite SFcompare_refl.
Qed.

(** C8, as the code has it: on a square grid, with [D] a zero, [dt] finite
    and the Laplacian finite at the cell, [B[j][i]] compares equal to
    [A[j][i]] unless that is a NaN, and is the very same value unless that
    is a zero (whose sign the addition may change). *)
Theorem step_in_time_zero_diffusivity (n : Z)
    (A B C : buffer PrimFloat.float) (D dt elapsed : PrimFloat.float)
    (sched : scheduler) (j i : Z) :
  tiling (interior_range n n) (sched (interior_range n n)) ->
  (1 <= j <= n - 2)%Z -> (1 <= i <= n - 2)%Z ->
  is_zero64 D = true -> is_finite64 dt = true ->
  is_finite64 (C j i) = true ->
  (is_nan64 (A j i) = false ->
     PrimFloat.eqb (fst (step_in_time sched A B C n n D dt elapsed) j i)
       (A j i) = true) /\
  (is_zero64 (A j i) = false ->
     fst (step_in_time sched A B C n n D dt elapsed) j i = A j i).
Proof.
  intros Hs Hj Hi HD Hdt HC.
  rewrite step_in_time_square by assumption.
  assert (Hz : is_zero64 (PrimFloat.mul (PrimFloat.mul dt D) (C j i)) = true).
  { apply mul_zero_finite; [| exact HC]. now apply mul_finite_zero. }
  split; intros HA.
  - now apply add_zero_equal.
  - now apply add_zero_same.
Qed.

Lemma step_in_time_zero_diffusivity_ones :
  tiling (interior_range 3 3) (serial (interior_range 3 3)) /\
  (1 <= 1 <= 3 - 2)%Z /\ (1 <= 1 <= 3 - 2)%Z /\
  is_zero64 (of_int 0) = true /\ is_finite64 (of_int 1) = true /\
  is_finite64 (ones64 1%Z 1%Z) = true /\
  (is_nan64 (ones64 1%Z 1%Z) = false ->
     PrimFloat.eqb
       (fst (step_in_time serial ones64 zeros64 ones64
               3 3 (of_int 0) (of_int 1) (of_int 0)) 1%Z 1%Z)
       (ones64 1%Z 1%Z) = true) /\
  (is_zero64 (ones64 1%Z 1%Z) = false ->
     fst (step_in_time serial ones64 zeros64 ones64
            3 3 (of_int 0) (of_int 1) (of_int 0)) 1%Z 1%Z = ones64 1%Z 1%Z).
Proof.
  assert (Ht : tiling (interior_range 3 3) (serial (interior_range 3 3)))
    by apply serial_tiling.
  split; [exact Ht | split; [lia | split; [lia |]]].
  split; [reflexivity | split; [reflexivity | split; [reflexivity |]]].
  apply (@step_in_time_zero_diffusivity 3 ones64 zeros64 ones64
           (of_int 0) (of_int 1) (of_int 0) serial 1 1);
    [exact Ht | lia | lia | reflexivity | reflexivity | reflexivity].
Defined.

(** C8 as stated fails in binary64: where the Laplacian has overflowed to
    infinity, [dt * 0 * C[j][i]] is a NaN and so is [B[j][i]]. *)
Lemma step_in_time_zero_diffusivity_nan :
  fst (step_in_time serial ones64 zeros64 (fun _ _ => PrimFloat.infinity)
         3 3 (of_int 0) (of_int 1) (of_int 0)) 1%Z 1%Z
  <> ones64 1%Z 1%Z.
Proof. float_discriminate. Qed.

(** ** The analytical solution *)

Section Analytical.

Local Open Scope R_scope.

Lemma Rerf_0 : Rerf 0 = 0.
Proof. unfold Rerf. rewrite RiemannInt_P9. ring. Qed.

(** C9: [analytical_value] stores [chi * (1 - erf (x / sqrt (4 D t)))],
    in every arithmetic.  At [x = 0], [t = 1], [D = 1], [chi = 1] that is
    1 in exact arithmetic, and in binary64 the argument handed to [erf] is
    exactly [+0.0], whatever the library's [erf]. *)
Theorem analytical_value_closed_form :
  (forall (F : Type) (ops : FloatOps F) (libm : Libm F) (x t D chi : F),
     analytical_value x t D chi =
     (chi *! (of_int 1 -! erf (x /! fsqrt (of_int 4 *! D *! t))))%fp) /\
  (forall x t D chi : R,
     analytical_value x t D chi = chi * (1 - Rerf (x / sqrt (4 * D * t)))) /\
  analytical_value 0 1 1 1 = 1 /\
  (forall erf64 : PrimFloat.float -> PrimFloat.float,
     analytical_value (libm := binary64_libm erf64)
       (of_int 0) (of_int 1) (of_int 1) (of_int 1) =
     (of_int 1 *! (of_int 1 -! erf64 (of_int 0)))%fp).
Proof.
  split; [reflexivity | split; [reflexivity | split]].
  - unfold analytical_value. cbn.
    replace (0 / sqrt (4 * 1 * 1)) with 0 by (unfold Rdiv; ring).
    rewrite Rerf_0. ring.
  - intros erf64. reflexivity.
Qed.

End Analytical.

(** In binary64 the same value is exactly [1.0] for every [erf] that maps
    [+0.0] to [+0.0], as Annex F of the C standard requires. *)
Lemma analytical_value_one64 (erf64 : PrimFloat.float -> PrimFloat.float) :
  erf64 (of_int 0) = of_int 0 ->
  analytical_value (libm := binary64_libm erf64)
    (of_int 0) (of_int 1) (of_int 1) (of_int 1) = of_int 1.
Proof.
  intros H0. unfold analytical_value. cbn [erf binary64_libm].
  change (of_int 0 /! fsqrt (of_int 4 *! of_int 1 *! of_int 1))%fp
    with (of_int 0 : PrimFloat.float).
  rewrite H0. reflexivity.
Qed.

(** ** The residual *)

Section Residual.

Context {F : Type} {ops : FloatOps F} {libm : Libm F}.

(** C10: [check_solution] reads [bc] at [bc[1][0]] only; two boundary
    arrays that agree there give the same residual, whatever the other
    three entries, the schedule and the arithmetic. *)
Theorem check_solution_reads_bc_1_0 (sched : scheduler) (A : buffer F)
    (nx ny : Z) (dx dy elapsed D : F) (bc bc' : buffer F) :
  bc 1%Z 0%Z = bc' 1%Z 0%Z ->
  check_solution sched A nx ny dx dy elapsed D bc =
  check_solution sched A nx ny dx dy elapsed D bc'.
Proof.
  intros Hbc. unfold check_solution. rewrite Hbc. reflexivity.
Qed.

End Residual.

Lemma check_solution_reads_bc_1_0_example :
  (fun _ _ : Z => 0%R) 1%Z 0%Z =
  (fun j i : Z => if ((j =? 1) && (i =? 0))%Z then 0%R else 1%R) 1%Z 0%Z /\
  check_solution halving (fun _ _ => 1%R) 19 19
    1%R 1%R 1%R 1%R (fun _ _ => 0%R) =
  check_solution halving (fun _ _ => 1%R) 19 19
    1%R 1%R 1%R 1%R
    (fun j i => if ((j =? 1) && (i =? 0))%Z then 0%R else 1%R).
Proof.
  split; [reflexivity |].
  apply (@check_solution_reads_bc_1_0 R exact_ops exact_libm
           halving (fun _ _ => 1%R) 19 19 1%R 1%R 1%R 1%R
           (fun _ _ => 0%R)
           (fun j i => if ((j =? 1) && (i =? 0))%Z then 0%R else 1%R)).
  reflexivity.
Defined.

(** ** The residual in exact arithmetic *)

Section ExactResidual.

Local Open Scope R_scope.

(** [ResidualSumOfSquares2D::operator()] adds the sum of its terms, with
    [nx] and [ny] those of the range it runs on. *)
Lemma ResidualSumOfSquares2D_sum (A : buffer R) (dx dy t D c : R)
    (r : blocked_range2d) (acc : R) :
  ResidualSumOfSquares2D A dx dy t D c r acc =
  acc + sum_from (Z.to_nat (range_size (cols r))) (range_begin (cols r))
          (fun j =>
             sum_from (Z.to_nat (range_size (rows r))) (range_begin (rows r))
               (fun i =>
                  residual_term A dx dy t D c
                    (range_size (rows r) + 2) (range_size (cols r) + 2) j i)).
Proof.
  unfold ResidualSumOfSquares2D, for_range.
  exact (iterate_sum2 _ _ _ _ _ _).
Qed.

(** With no source, [c = 0], the term is the squared cell value over the
    cell count. *)
Lemma residual_term_no_source (A : buffer R) (dx dy t D : R) (nx ny j i : Z) :
  residual_term A dx dy t D 0 nx ny j i =
  A j i * A j i / IZR ((nx - 2) * (ny - 2)).
Proof.
  unfold residual_term, analytical_value.
  cbn [fadd fsub fmul fdiv of_int exact_ops].
  unfold Rdiv. ring.
Qed.

(** On a constant field with no source, a tile adds its own mean square:
    the square of the constant, whatever the size of the tile. *)
Lemma ResidualSumOfSquares2D_constant (A : buffer R) (a dx dy t D : R)
    (r : blocked_range2d) (acc : R) :
  (forall j i, A j i = a) -> nonempty r ->
  ResidualSumOfSquares2D A dx dy t D 0 r acc = acc + a * a.
Proof.
  intros HA [Hr Hc]. rewrite ResidualSumOfSquares2D_sum.
  unfold range_size.
  set (p := (range_end (rows r) - range_begin (rows r))%Z).
  set (q := (range_end (cols r) - range_begin (cols r))%Z).
  assert (Hp : (0 < p)%Z) by (unfold p; lia).
  assert (Hq : (0 < q)%Z) by (unfold q; lia).
  rewrite (sum_from_ext _ (fun _ => INR (Z.to_nat p) * (a * a / IZR (p * q)))).
  - rewrite sum_from_const, !INR_IZR_INZ, !Z2Nat.id by lia.
    rewrite mult_IZR. field.
    split; apply not_0_IZR; lia.
  - intros j.
    rewrite (sum_from_ext _ (fun _ => a * a / IZR (p * q))).
    + apply sum_from_const.
    + intros i. rewrite residual_term_no_source, HA.
      do 3 f_equal; lia.
Qed.

(** So the residual of a constant field counts the tiles: every tile
    normalises by its own cell count. *)
Lemma reduce_tiles_constant (A : buffer R) (a dx dy t D : R)
    (r : blocked_range2d) (s : schedule) :
  (forall j i, A j i = a) -> tiling r s -> nonempty r ->
  forall acc,
    reduce_tiles (ResidualSumOfSquares2D A dx dy t D 0) join 0 s acc =
    acc + INR (tiles s) * (a * a).
Proof.
  intros HA Hs. unfold nonempty.
  induction Hs as [r | r m st x y Hm _ IHx _ IHy | r m st x y Hm _ IHx _ IHy];
    intros Hne acc.
  - cbn [reduce_tiles tiles].
    rewrite (ResidualSumOfSquares2D_constant _ _ _ _ _ _ HA Hne). cbn. ring.
  - cbn [tiles]. rewrite plus_INR.
    destruct st; cbn [reduce_tiles];
      rewrite ?IHx, ?IHy by (cbn; lia); unfold join; cbn [fadd exact_ops]; ring.
  - cbn [tiles]. rewrite plus_INR.
    destruct st; cbn [reduce_tiles];
      rewrite ?IHx, ?IHy by (cbn; lia); unfold join; cbn [fadd exact_ops]; ring.
Qed.

Lemma check_solution_counts_tiles (A : buffer R) (a dx dy t D : R)
    (nx ny : Z) (bc : buffer R) (sched : scheduler) :
  (forall j i, A j i = a) -> bc 1%Z 0%Z = 0 ->
  tiling (interior_range nx ny) (sched (interior_range nx ny)) ->
  (3 <= nx)%Z -> (3 <= ny)%Z ->
  check_solution sched A nx ny dx dy t D bc =
  INR (tiles (sched (interior_range nx ny))) * (a * a).
Proof.
  intros HA Hbc Hs Hnx Hny. unfold check_solution, parallel_reduce.
  assert (Hne : nonempty (interior_range nx ny)) by (unfold nonempty; cbn; lia).
  rewrite (nonempty_not_empty Hne), Hbc.
  change (of_int 0) with 0.
  rewrite (@reduce_tiles_constant A a dx dy t D _ _ HA Hs Hne).
  ring.
Qed.

(** The 17 x 17 interior of a 19 x 19 grid exceeds the grain size: TBB
    may leave it whole or halve it along the rows. *)
Lemma interior_19_schedules :
  tbb_schedule (interior_range 19 19) (serial (interior_range 19 19)) = true /\
  tbb_schedule (interior_range 19 19) (halving (interior_range 19 19)) = true /\
  halving (interior_range 19 19) =
    Split true (Tile (mk_blocked_range2d 1 9 16 1 18 16))
               (Tile (mk_blocked_range2d 9 18 16 1 18 16)).
Proof. repeat split. Qed.

(** C1, at [nx = ny = 19], [dx = dy = 1], [t = 1], [D = 1], [bc] zero and
    the field constant 1: run whole the residual is 1, run as the two
    halves TBB cuts it is 2. *)
Theorem check_solution_tile_dependent :
  check_solution serial (fun _ _ => 1) 19 19 1 1 1 1 (fun _ _ => 0) = 1 /\
  check_solution halving (fun _ _ => 1) 19 19 1 1 1 1 (fun _ _ => 0) = 2.
Proof.
  assert (Hw : tiling (interior_range 19 19) (serial (interior_range 19 19)))
    by apply serial_tiling.
  assert (Hh : tiling (interior_range 19 19) (halving (interior_range 19 19))).
  { apply tbb_schedule_tiling; [reflexivity | reflexivity |].
    apply halving_tbb_schedule. }
  split.
  - rewrite (@check_solution_counts_tiles (fun _ _ => 1) 1 1 1 1 1 19 19
               (fun _ _ => 0) serial (fun _ _ => eq_refl) eq_refl Hw)
      by lia.
    cbn. ring.
  - rewrite (@check_solution_counts_tiles (fun _ _ => 1) 1 1 1 1 1 19 19
               (fun _ _ => 0) halving (fun _ _ => eq_refl) eq_refl Hh)
      by lia.
    cbn. ring.
Qed.

(** *** Against the residual of the specification *)



(** C2, at [nx = 4], [ny = 3], [dx = dy = 1], [t = 1], [D = 1], [bc] zero
    and the field [spike_1_2]: the interior cells are [A[1][1]] and
    [A[1][2]] and their mean squared error is 1/2, while [check_solution],
    run whole, visits [A[1][1]] and [A[2][1]] and stores 0. *)
Theorem check_solution_4_3 :
  mean_squared_error spike_1_2 4 3 1 1 1 1 0 = 1 / 2 /\
  check_solution serial spike_1_2 4 3 1 1 1 1 (fun _ _ => 0) = 0.
Proof.
  split.
  - unfold mean_squared_error, sum_over, superposition, analytical_value.
    cbn [Z.sub Z.add Z.opp Z.pos_sub Pos.pred_double Z.to_nat Z.mul Pos.mul
         Z.succ_double Z.pred_double Z.double Pos.add Pos.succ].
    change (Pos.to_nat 1) with 1%nat. change (Pos.to_nat 2) with 2%nat.
    cbn [sum_from Z.add Pos.add Pos.succ].
    unfold spike_1_2.
    cbn [Z.eqb Pos.eqb andb fadd fsub fmul fdiv of_int exact_ops].
    lra.
  - unfold check_solution, parallel_reduce, serial.
    change (range2d_empty (interior_range 4 3)) with false.
    cbn [reduce_tiles]. rewrite ResidualSumOfSquares2D_sum.
    unfold interior_range, range_size.
    cbn [rows cols mk_blocked_range2d range_begin range_end of_int exact_ops].
    cbn [Z.sub Z.add Z.opp Z.pos_sub Pos.pred_double Z.to_nat
         Z.succ_double Z.pred_double Z.double Pos.add Pos.succ].
    change (Pos.to_nat 1) with 1%nat. change (Pos.to_nat 2) with 2%nat.
    cbn [sum_from Z.add Pos.add Pos.succ].
    rewrite !residual_term_no_source.
    unfold spike_1_2.
    cbn [Z.eqb Pos.eqb andb Z.sub Z.add Z.opp Z.pos_sub Pos.pred_double
         Z.mul Pos.mul Z.succ_double Z.pred_double Z.double Pos.add Pos.succ].
    lra.
Qed.

End ExactResidual.

(* ================================================================== *)
(** * Part IV: further properties of the kernels *)

(** ** The writing kernels under any schedule *)

Lemma in_tile_dec (r : blocked_range2d) (j i : Z) :
  {in_tile r j i} + {~ in_tile r j i}.
Proof.
  unfold in_tile.
  destruct (Z_le_dec (range_begin (cols r)) j),
           (Z_lt_dec j (range_end (cols r))),
           (Z_le_dec (range_begin (rows r)) i),
           (Z_lt_dec i (range_end (rows r)));
    try (left; lia); right; lia.
Qed.

Section Schedules.

Context {F : Type} {ops : FloatOps F}.
Local Open Scope fp_scope.
Local Open Scope Z_scope.

(** What [parallel_for] leaves does not depend on the tiling. *)
Lemma parallel_for_fill_independent (f : Z -> Z -> F) sched sched' R C j i :
  tiling R (sched R) -> tiling R (sched' R) ->
  parallel_for sched R (fill_tile f) C j i =
  parallel_for sched' R (fill_tile f) C j i.
Proof.
  intros Hs Hs'. destruct (in_tile_dec R j i) as [Hin | Hout].
  - now rewrite !parallel_for_in.
  - now rewrite !parallel_for_out.
Qed.

(** X1: the buffer [compute_convolution] leaves is the same under any two
    tilings of its range, cell by cell, for every grid and arithmetic. *)
Theorem compute_convolution_schedule_independent
    (sched sched' : scheduler) (A C M : buffer F) (nx ny nm j i : Z) :
  tiling (interior_range nx ny) (sched (interior_range nx ny)) ->
  tiling (interior_range nx ny) (sched' (interior_range nx ny)) ->
  compute_convolution sched A C M nx ny nm j i =
  compute_convolution sched' A C M nx ny nm j i.
Proof.
  intros Hs Hs'. unfold compute_convolution.
  rewrite ComputeConvolution2D_fill.
  now apply parallel_for_fill_independent.
Qed.

(** X2: the buffer and the elapsed time [step_in_time] leaves are the same
    under any two tilings of its range. *)
Theorem step_in_time_schedule_independent
    (sched sched' : scheduler) (A B C : buffer F) (nx ny : Z)
    (D dt elapsed : F) (j i : Z) :
  tiling (interior_range nx ny) (sched (interior_range nx ny)) ->
  tiling (interior_range nx ny) (sched' (interior_range nx ny)) ->
  fst (step_in_time sched A B C nx ny D dt elapsed) j i =
  fst (step_in_time sched' A B C nx ny D dt elapsed) j i /\
  snd (step_in_time sched A B C nx ny D dt elapsed) =
  snd (step_in_time sched' A B C nx ny D dt elapsed).
Proof.
  intros Hs Hs'. split; [| reflexivity].
  unfold step_in_time; cbn [fst]. rewrite StepInTime2D_fill.
  now apply parallel_for_fill_independent.
Qed.

(** X3: on a square grid neither writing kernel touches a cell outside
    the interior: the halo rows and columns keep what they held. *)
Theorem writing_kernels_keep_halo (sched : scheduler)
    (A B C L M : buffer F) (n nm : Z) (D dt elapsed : F) (j i : Z) :
  tiling (interior_range n n) (sched (interior_range n n)) ->
  j <= 0 \/ n - 1 <= j \/ i <= 0 \/ n - 1 <= i ->
  compute_convolution sched A C M n n nm j i = C j i /\
  fst (step_in_time sched A B L n n D dt elapsed) j i = B j i.
Proof.
  intros Hs Hout. split.
  - apply compute_convolution_untouched; [exact Hs | lia].
  - apply step_in_time_untouched; [exact Hs | lia].
Qed.

(** X4: on a grid without interior cells ([nx <= 2] or [ny <= 2]) the
    range is empty and no body runs: [compute_convolution] returns [C] and
    [step_in_time] returns [B] as they were, under any scheduler, while
    the elapsed time still advances by [dt]. *)
Theorem writing_kernels_no_interior (sched : scheduler)
    (A B C L M : buffer F) (nx ny nm : Z) (D dt elapsed : F) :
  nx <= 2 \/ ny <= 2 ->
  compute_convolution sched A C M nx ny nm = C /\
  step_in_time sched A B L nx ny D dt elapsed = (B, elapsed +! dt).
Proof.
  intros Hn.
  assert (He : range2d_empty (interior_range nx ny) = true).
  { unfold range2d_empty, range_empty; cbn.
    apply orb_true_iff. rewrite !negb_true_iff, !Z.ltb_ge. lia. }
  unfold compute_convolution, step_in_time, parallel_for.
  rewrite He. split; reflexivity.
Qed.

Context {libm : Libm F}.

(** X5: on a grid without interior cells [check_solution] stores [0.0]:
    no term is added and nothing is divided by the zero cell count. *)
Theorem check_solution_no_interior (sched : scheduler) (A : buffer F)
    (nx ny : Z) (dx dy elapsed D : F) (bc : buffer F) :
  nx <= 2 \/ ny <= 2 ->
  check_solution sched A nx ny dx dy elapsed D bc = of_int 0.
Proof.
  intros Hn.
  assert (He : range2d_empty (interior_range nx ny) = true).
  { unfold range2d_empty, range_empty; cbn.
    apply orb_true_iff. rewrite !negb_true_iff, !Z.ltb_ge. lia. }
  unfold check_solution, parallel_reduce. now rewrite He.
Qed.

End Schedules.

Lemma halving_tiling_19 :
  tiling (interior_range 19 19) (halving (interior_range 19 19)).
Proof.
  apply tbb_schedule_tiling; [reflexivity | reflexivity |].
  apply halving_tbb_schedule.
Qed.

Lemma compute_convolution_schedule_independent_19 :
  tiling (interior_range 19 19) (serial (interior_range 19 19)) /\
  tiling (interior_range 19 19) (halving (interior_range 19 19)) /\
  compute_convolution serial ones64 zeros64 ones64 19 19 1 9%Z 9%Z =
  compute_convolution halving ones64 zeros64 ones64 19 19 1 9%Z 9%Z.
Proof.
  split; [apply serial_tiling | split; [apply halving_tiling_19 |]].
  apply (@compute_convolution_schedule_independent _ binary64
           serial halving ones64 zeros64 ones64 19 19 1 9 9);
    [apply serial_tiling | apply halving_tiling_19].
Defined.

Lemma step_in_time_schedule_independent_19 :
  tiling (interior_range 19 19) (serial (interior_range 19 19)) /\
  tiling (interior_range 19 19) (halving (interior_range 19 19)) /\
  fst (step_in_time serial ones64 zeros64 ones64 19 19
         half64 half64 (of_int 0)) 9%Z 9%Z =
  fst (step_in_time halving ones64 zeros64 ones64 19 19
         half64 half64 (of_int 0)) 9%Z 9%Z /\
  snd (step_in_time serial ones64 zeros64 ones64 19 19
         half64 half64 (of_int 0)) =
  snd (step_in_time halving ones64 zeros64 ones64 19 19
         half64 half64 (of_int 0)).
Proof.
  split; [apply serial_tiling | split; [apply halving_tiling_19 |]].
  apply (@step_in_time_schedule_independent _ binary64
           serial halving ones64 zeros64 ones64 19 19
           half64 half64 (of_int 0) 9 9);
    [apply serial_tiling | apply halving_tiling_19].
Defined.

Lemma writing_kernels_keep_halo_19 :
  tiling (interior_range 19 19) (halving (interior_range 19 19)) /\
  (0 <= 0 \/ 19 - 1 <= 0 \/ 5 <= 0 \/ 19 - 1 <= 5)%Z /\
  compute_convolution halving ones64 zeros64 ones64 19 19 1 0%Z 5%Z =
    zeros64 0%Z 5%Z /\
  fst (step_in_time halving ones64 zeros64 ones64 19 19
         half64 half64 (of_int 0)) 0%Z 5%Z = zeros64 0%Z 5%Z.
Proof.
  split; [apply halving_tiling_19 | split; [lia |]].
  apply (@writing_kernels_keep_halo _ binary64 halving
           ones64 zeros64 zeros64 ones64 ones64 19 1 half64 half64 (of_int 0)
           0 5);
    [apply halving_tiling_19 | lia].
Defined.

Lemma writing_kernels_no_interior_2 :
  (2 <= 2 \/ 7 <= 2)%Z /\
  compute_convolution halving ones64 zeros64 ones64 2 7 1 = zeros64 /\
  step_in_time halving ones64 zeros64 ones64 2 7 half64 half64 (of_int 0) =
    (zeros64, (of_int 0 +! half64)%fp).
Proof.
  split; [lia |].
  apply (@writing_kernels_no_interior _ binary64 halving
           ones64 zeros64 zeros64 ones64 ones64 2 7 1 half64 half64 (of_int 0)).
  lia.
Defined.

Lemma check_solution_no_interior_2 :
  (2 <= 2 \/ 7 <= 2)%Z /\
  check_solution (libm := exact_libm) halving (fun _ _ => 1%R) 2 7
    1%R 1%R 1%R 1%R (fun _ _ => 1%R) = 0%R.
Proof.
  split; [lia |].
  apply (@check_solution_no_interior R exact_ops exact_libm halving
           (fun _ _ => 1%R) 2 7 1%R 1%R 1%R 1%R (fun _ _ => 1%R)).
  lia.
Defined.

(** ** The convolution as a linear operator, in exact arithmetic *)

Section ExactOperator.

Local Open Scope R_scope.

Lemma sum_from_linear (f g : Z -> R) (a b : R) (n : nat) :
  forall k,
    sum_from n k (fun m => a * f m + b * g m) =
    a * sum_from n k f + b * sum_from n k g.
Proof.
  induction n as [| n IH]; intros k; cbn [sum_from].
  - ring.
  - rewrite IH. ring.
Qed.

(** X6: in exact arithmetic the stencil sum is linear in the field, for
    every mask and radius. *)
Theorem convolve_cell_linear (A1 A2 M : buffer R) (a b : R) (nm j i : Z) :
  convolve_cell (fun j' i' => a * A1 j' i' + b * A2 j' i') M nm j i =
  a * convolve_cell A1 M nm j i + b * convolve_cell A2 M nm j i.
Proof.
  rewrite !convolve_cell_stencil_sum. unfold stencil_sum, sum_over.
  rewrite <- sum_from_linear.
  apply sum_from_ext. intros mj.
  rewrite <- sum_from_linear.
  apply sum_from_ext. intros mi. ring.
Qed.

(** X7: with the mask of [set_mask] the convolution is the exact Laplacian
    of every quadratic polynomial in the cell coordinates: on a square
    grid each interior cell receives [2 cxx + 2 cyy]. *)
Theorem laplacian_of_quadratic (n : Z) (dx dy c0 cx cy cxx cyy cxy : R)
    (C M : buffer R) (sched : scheduler) (j i : Z) :
  0 < dx -> 0 < dy -> corners_zero M ->
  tiling (interior_range n n) (sched (interior_range n n)) ->
  (1 <= j <= n - 2)%Z -> (1 <= i <= n - 2)%Z ->
  compute_convolution sched (quadratic dx dy c0 cx cy cxx cyy cxy) C
    (snd (set_mask dx dy M)) n n (fst (set_mask dx dy M)) j i =
  2 * cxx + 2 * cyy.
Proof.
  intros Hdx Hdy (H00 & H02 & H20 & H22) Hs Hj Hi.
  rewrite compute_convolution_square by assumption.
  change (fst (set_mask dx dy M)) with 1%Z.
  rewrite convolve_cell_exact.
  destruct (set_mask_assigned dx dy M) as (-> & -> & -> & -> & ->).
  destruct (set_mask_corners dx dy M) as (-> & -> & -> & ->).
  rewrite H00, H02, H20, H22.
  unfold quadratic. rewrite !minus_IZR, !plus_IZR.
  cbn [of_int exact_ops fadd fmul fdiv].
  field. split; lra.
Qed.

Lemma laplacian_of_quadratic_unit :
  0 < 1 /\ 0 < 1 /\ corners_zero (fun _ _ => 0) /\
  tiling (interior_range 3 3) (serial (interior_range 3 3)) /\
  (1 <= 1 <= 3 - 2)%Z /\ (1 <= 1 <= 3 - 2)%Z /\
  compute_convolution serial (quadratic 1 1 0 0 0 1 1 0) (fun _ _ => 0)
    (snd (set_mask 1 1 (fun _ _ => 0))) 3 3
    (fst (set_mask 1 1 (fun _ _ => 0))) 1%Z 1%Z = 2 * 1 + 2 * 1.
Proof.
  assert (Hc : corners_zero (fun _ _ : Z => 0)) by (repeat split).
  assert (Ht : tiling (interior_range 3 3) (serial (interior_range 3 3)))
    by apply serial_tiling.
  split; [lra | split; [lra | split; [exact Hc | split; [exact Ht |]]]].
  split; [lia | split; [lia |]].
  apply (@laplacian_of_quadratic 3 1 1 0 0 0 1 1 0 (fun _ _ => 0)
           (fun _ _ => 0) serial 1 1);
    [lra | lra | exact Hc | exact Ht | lia | lia].
Defined.

(** The explicit step at an interior cell of a square grid, written out:
    the convolution with the mask of [set_mask], then [step_in_time]. *)
Lemma euler_step_exact (n : Z) (dx dy D dt elapsed : R)
    (A B C M : buffer R) (sched sched' : scheduler) (j i : Z) :
  corners_zero M ->
  tiling (interior_range n n) (sched (interior_range n n)) ->
  tiling (interior_range n n) (sched' (interior_range n n)) ->
  (1 <= j <= n - 2)%Z -> (1 <= i <= n - 2)%Z ->
  fst (step_in_time sched' A B
         (compute_convolution sched A C (snd (set_mask dx dy M)) n n
            (fst (set_mask dx dy M)))
         n n D dt elapsed) j i =
  A j i + dt * D *
    (1 / (dy * dy) * A (j - 1)%Z i + 1 / (dx * dx) * A j (i - 1)%Z
     + -2 * (dx * dx + dy * dy) / (dx * dx * dy * dy) * A j i
     + 1 / (dx * dx) * A j (i + 1)%Z + 1 / (dy * dy) * A (j + 1)%Z i).
Proof.
  intros (H00 & H02 & H20 & H22) Hs Hs' Hj Hi.
  rewrite step_in_time_square by assumption.
  rewrite compute_convolution_square by assumption.
  change (fst (set_mask dx dy M)) with 1%Z.
  rewrite convolve_cell_exact.
  destruct (set_mask_assigned dx dy M) as (-> & -> & -> & -> & ->).
  destruct (set_mask_corners dx dy M) as (-> & -> & -> & ->).
  rewrite H00, H02, H20, H22.
  cbn [of_int exact_ops fadd fmul fdiv]. ring.
Qed.

(** X8: the discrete maximum principle.  On a square grid, when
    [0 <= dt D] and [2 dt D (1/dx^2 + 1/dy^2) <= 1], the convolution with
    the mask of [set_mask] followed by [step_in_time] leaves at an
    interior cell a value between any two bounds that hold for the cell
    and its four neighbours. *)
Theorem euler_step_within_bounds (n : Z) (dx dy D dt elapsed lo hi : R)
    (A B C M : buffer R) (sched sched' : scheduler) (j i : Z) :
  0 < dx -> 0 < dy -> corners_zero M ->
  0 <= dt * D ->
  2 * (dt * D) * (1 / (dx * dx) + 1 / (dy * dy)) <= 1 ->
  tiling (interior_range n n) (sched (interior_range n n)) ->
  tiling (interior_range n n) (sched' (interior_range n n)) ->
  (1 <= j <= n - 2)%Z -> (1 <= i <= n - 2)%Z ->
  lo <= A j i <= hi ->
  lo <= A (j - 1)%Z i <= hi -> lo <= A (j + 1)%Z i <= hi ->
  lo <= A j (i - 1)%Z <= hi -> lo <= A j (i + 1)%Z <= hi ->
  lo <= fst (step_in_time sched' A B
               (compute_convolution sched A C (snd (set_mask dx dy M)) n n
                  (fst (set_mask dx dy M)))
               n n D dt elapsed) j i <= hi.
Proof.
  intros Hdx Hdy Hc Hmu Hstab Hs Hs' Hj Hi Hc0 Hu Hd Hl Hr.
  rewrite (@euler_step_exact n dx dy D dt elapsed A B C M sched sched' j i
             Hc Hs Hs' Hj Hi).
  set (a := dt * D * (1 / (dx * dx))).
  set (b := dt * D * (1 / (dy * dy))).
  assert (Hx : 0 < 1 / (dx * dx)).
  { apply Rdiv_lt_0_compat; [lra | apply Rmult_lt_0_compat; lra]. }
  assert (Hy : 0 < 1 / (dy * dy)).
  { apply Rdiv_lt_0_compat; [lra | apply Rmult_lt_0_compat; lra]. }
  assert (Ha : 0 <= a) by (apply Rmult_le_pos; lra).
  assert (Hb : 0 <= b) by (apply Rmult_le_pos; lra).
  assert (Hab : 2 * a + 2 * b <= 1) by (unfold a, b; lra).
  replace (A j i + dt * D *
             (1 / (dy * dy) * A (j - 1)%Z i + 1 / (dx * dx) * A j (i - 1)%Z
              + -2 * (dx * dx + dy * dy) / (dx * dx * dy * dy) * A j i
              + 1 / (dx * dx) * A j (i + 1)%Z + 1 / (dy * dy) * A (j + 1)%Z i))
    with ((1 - 2 * a - 2 * b) * A j i
          + b * A (j - 1)%Z i + b * A (j + 1)%Z i
          + a * A j (i - 1)%Z + a * A j (i + 1)%Z)
    by (unfold a, b; field; split; lra).
  split; nra.
Qed.

End ExactOperator.

(** ** The driver's time step *)

Section ExactDriver.

Local Open Scope R_scope.

Lemma main_h_min (dx dy : R) : main_h dx dy = Rmin dx dy.
Proof.
  unfold main_h, fgt, exact_cmp, Rmin.
  destruct (Rlt_dec dy dx), (Rle_dec dx dy); lra.
Qed.

(** X9: in exact arithmetic the time step [main] computes meets the
    stability bound of the explicit scheme with margin [linStab]:
    [2 dt D (1/dx^2 + 1/dy^2) <= linStab], and [dt D] is not negative. *)
Theorem main_dt_stable (dx dy linStab D : R) :
  0 < dx -> 0 < dy -> 0 < D -> 0 <= linStab ->
  0 <= main_dt dx dy linStab D * D /\
  2 * (main_dt dx dy linStab D * D) * (1 / (dx * dx) + 1 / (dy * dy))
    <= linStab.
Proof.
  intros Hdx Hdy HD Hl. unfold main_dt. rewrite main_h_min.
  cbn [of_int exact_ops fadd fmul fdiv].
  set (h := Rmin dx dy).
  assert (Hh : 0 < h) by (unfold h; apply Rmin_glb_lt; lra).
  assert (Hhx : h <= dx) by apply Rmin_l.
  assert (Hhy : h <= dy) by apply Rmin_r.
  replace (linStab * h * h / (4 * D) * D) with (linStab * (h * h) / 4)
    by (field; lra).
  assert (Hx : h * h * (1 / (dx * dx)) <= 1).
  { replace 1 with (dx * dx * (1 / (dx * dx))) at 2 by (field; lra).
    apply Rmult_le_compat_r; [| nra].
    left. apply Rdiv_lt_0_compat; nra. }
  assert (Hy : h * h * (1 / (dy * dy)) <= 1).
  { replace 1 with (dy * dy * (1 / (dy * dy))) at 2 by (field; lra).
    apply Rmult_le_compat_r; [| nra].
    left. apply Rdiv_lt_0_compat; nra. }
  split; [nra |].
  replace (2 * (linStab * (h * h) / 4) * (1 / (dx * dx) + 1 / (dy * dy)))
    with (linStab / 2 * (h * h * (1 / (dx * dx)) + h * h * (1 / (dy * dy))))
    by (field; split; lra).
  nra.
Qed.

Lemma main_dt_stable_unit :
  0 < 1 /\ 0 < 2 /\ 0 < 1 /\ 0 <= 1 /\
  0 <= main_dt 1 2 1 1 * 1 /\
  2 * (main_dt 1 2 1 1 * 1) * (1 / (1 * 1) + 1 / (2 * 2)) <= 1.
Proof.
  split; [lra | split; [lra | split; [lra | split; [lra |]]]].
  apply (@main_dt_stable 1 2 1 1); lra.
Defined.

End ExactDriver.

(** With the defaults of [main], [dx = dy = 0.5], [D = 0.00625] and
    [linStab = 0.1], the binary64 time step is exactly [1.0]. *)
Lemma main_dt_default64 :
  main_dt half64 half64 tenth64 (of_int 1 /! of_int 160)%fp = of_int 1.
Proof. vm_compute. reflexivity. Qed.

Section ExactStep.

Local Open Scope R_scope.

Lemma euler_step_within_bounds_unit :
  0 < 1 /\ 0 < 1 /\ corners_zero (fun _ _ => 0) /\
  0 <= 1 / 4 * 1 /\
  2 * (1 / 4 * 1) * (1 / (1 * 1) + 1 / (1 * 1)) <= 1 /\
  tiling (interior_range 3 3) (serial (interior_range 3 3)) /\
  tiling (interior_range 3 3) (serial (interior_range 3 3)) /\
  (1 <= 1 <= 3 - 2)%Z /\ (1 <= 1 <= 3 - 2)%Z /\
  0 <= spike_1_2 1%Z 1%Z <= 1 /\
  0 <= spike_1_2 (1 - 1)%Z 1%Z <= 1 /\ 0 <= spike_1_2 (1 + 1)%Z 1%Z <= 1 /\
  0 <= spike_1_2 1%Z (1 - 1)%Z <= 1 /\ 0 <= spike_1_2 1%Z (1 + 1)%Z <= 1 /\
  0 <= fst (step_in_time serial spike_1_2 (fun _ _ => 0)
              (compute_convolution serial spike_1_2 (fun _ _ => 0)
                 (snd (set_mask 1 1 (fun _ _ => 0))) 3 3
                 (fst (set_mask 1 1 (fun _ _ => 0))))
              3 3 1 (1 / 4) 0) 1%Z 1%Z <= 1.
Proof.
  assert (Hc : corners_zero (fun _ _ : Z => 0)) by (repeat split).
  assert (Ht : tiling (interior_range 3 3) (serial (interior_range 3 3)))
    by apply serial_tiling.
  assert (Hmu : 0 <= 1 / 4 * 1) by lra.
  assert (Hstab : 2 * (1 / 4 * 1) * (1 / (1 * 1) + 1 / (1 * 1)) <= 1) by lra.
  assert (B11 : 0 <= spike_1_2 1%Z 1%Z <= 1) by (cbn; lra).
  assert (B01 : 0 <= spike_1_2 (1 - 1)%Z 1%Z <= 1) by (cbn; lra).
  assert (B21 : 0 <= spike_1_2 (1 + 1)%Z 1%Z <= 1) by (cbn; lra).
  assert (B10 : 0 <= spike_1_2 1%Z (1 - 1)%Z <= 1) by (cbn; lra).
  assert (B12 : 0 <= spike_1_2 1%Z (1 + 1)%Z <= 1) by (cbn; lra).
  split; [lra | split; [lra | split; [exact Hc |]]].
  split; [exact Hmu | split; [exact Hstab |]].
  split; [exact Ht | split; [exact Ht | split; [lia | split; [lia |]]]].
  split; [exact B11 | split; [exact B01 | split; [exact B21 |]]].
  split; [exact B10 | split; [exact B12 |]].
  apply (@euler_step_within_bounds 3 1 1 1 (1 / 4) 0 0 1
           spike_1_2 (fun _ _ => 0) (fun _ _ => 0) (fun _ _ => 0)
           serial serial 1 1);
    [lra | lra | exact Hc | exact Hmu | exact Hstab | exact Ht | exact Ht
    | lia | lia | exact B11 | exact B01 | exact B21 | exact B10 | exact B12].
Defined.

End ExactStep.

(** ** The reduction, in exact arithmetic *)

Section ExactReduction.

Local Open Scope R_scope.

Lemma sum_tiles_app (body : blocked_range2d -> R -> R)
    (l l' : list blocked_range2d) :
  sum_tiles body (l ++ l') = sum_tiles body l + sum_tiles body l'.
Proof.
  unfold sum_tiles. induction l as [| r l IH]; cbn [app fold_right].
  - ring.
  - rewrite IH. ring.
Qed.

(** A reduction whose bodies add to their accumulator adds up the tiles'
    own sums, whoever ran them. *)
Lemma reduce_tiles_sum (body : blocked_range2d -> R -> R) (s : schedule) :
  (forall r acc, body r acc = acc + body r 0) ->
  forall acc,
    reduce_tiles body join 0 s acc = acc + sum_tiles body (leaves s).
Proof.
  intros Hbody. induction s as [r | st a IHa b IHb]; intros acc.
  - cbn [reduce_tiles leaves]. rewrite Hbody. unfold sum_tiles; cbn. ring.
  - cbn [leaves]. rewrite sum_tiles_app.
    destruct st; cbn [reduce_tiles].
    + rewrite IHa, IHb. unfold join; cbn [fadd exact_ops]. ring.
    + rewrite IHb, IHa. ring.
Qed.

Lemma ResidualSumOfSquares2D_adds (A : buffer R) (dx dy t D c : R)
    (r : blocked_range2d) (acc : R) :
  ResidualSumOfSquares2D A dx dy t D c r acc =
  acc + ResidualSumOfSquares2D A dx dy t D c r 0.
Proof. rewrite !ResidualSumOfSquares2D_sum. ring. Qed.

(** X10: in exact arithmetic [check_solution] depends on the schedule
    only through its list of tiles: which parts were stolen, and how the
    cuts nest, makes no difference to the joined sum. *)
Theorem check_solution_tiles_only (sched sched' : scheduler) (A : buffer R)
    (nx ny : Z) (dx dy t D : R) (bc : buffer R) :
  leaves (sched (interior_range nx ny)) =
  leaves (sched' (interior_range nx ny)) ->
  check_solution sched A nx ny dx dy t D bc =
  check_solution sched' A nx ny dx dy t D bc.
Proof.
  intros Hl. unfold check_solution, parallel_reduce.
  destruct (range2d_empty (interior_range nx ny)); [reflexivity |].
  change (of_int 0) with 0.
  rewrite !reduce_tiles_sum by (intros; apply ResidualSumOfSquares2D_adds).
  now rewrite Hl.
Qed.

Lemma check_solution_tiles_only_19 :
  leaves (halving (interior_range 19 19)) =
  leaves (halving_unstolen (interior_range 19 19)) /\
  check_solution halving (fun _ _ => 1) 19 19 1 1 1 1 (fun _ _ => 1) =
  check_solution halving_unstolen (fun _ _ => 1) 19 19 1 1 1 1 (fun _ _ => 1).
Proof.
  split; [reflexivity |].
  apply (@check_solution_tiles_only halving halving_unstolen
           (fun _ _ => 1) 19 19 1 1 1 1 (fun _ _ => 1)).
  reflexivity.
Defined.








End ExactReduction.

(** ** What the kernels read *)

Lemma iterate_ext_range {S : Type} (f g : Z -> S -> S) (n : nat) :
  forall k,
    (forall m s, (k <= m < k + Z.of_nat n)%Z -> f m s = g m s) ->
    forall s, iterate n k f s = iterate n k g s.
Proof.
  induction n as [| n IH]; intros k Hfg s; cbn [iterate].
  - reflexivity.
  - rewrite Hfg by lia. apply IH. intros; apply Hfg; lia.
Qed.

Section Footprints.

Context {F : Type} {ops : FloatOps F}.
Local Open Scope fp_scope.
Local Open Scope Z_scope.

(** The stencil sum at a cell reads the field within [nm] of the cell. *)
Lemma convolve_cell_window (A A' M : buffer F) (nm j i : Z) :
  (forall mj mi, - nm <= mj <= nm -> - nm <= mi <= nm ->
     A (j + mj) (i + mi) = A' (j + mj) (i + mi)) ->
  convolve_cell A M nm j i = convolve_cell A' M nm j i.
Proof.
  intros HA. unfold convolve_cell, for_range.
  apply iterate_ext_range. intros mj value Hmj.
  apply iterate_ext_range. intros mi value' Hmi.
  rewrite HA by lia. reflexivity.
Qed.

(** X13: on a square grid [compute_convolution] reads the field only
    within [nm] of the interior: two fields that agree on the indices
    [1 - nm .. n - 2 + nm] give the same buffer.  With the radius 1 of
    [set_mask] these are the indices [0 .. n - 1] of the grid. *)
Theorem compute_convolution_reads_window (sched : scheduler)
    (A A' C M : buffer F) (n nm : Z) :
  tiling (interior_range n n) (sched (interior_range n n)) ->
  (forall j i, 1 - nm <= j <= n - 2 + nm -> 1 - nm <= i <= n - 2 + nm ->
     A j i = A' j i) ->
  forall j i,
    compute_convolution sched A C M n n nm j i =
    compute_convolution sched A' C M n n nm j i.
Proof.
  intros Hs HA j i.
  destruct (in_tile_dec (interior_range n n) j i) as [Hin | Hout].
  - unfold in_tile in Hin; cbn in Hin.
    rewrite !compute_convolution_square by (assumption || lia).
    apply convolve_cell_window. intros mj mi Hmj Hmi. apply HA; lia.
  - unfold in_tile in Hout; cbn in Hout.
    rewrite !compute_convolution_untouched by (assumption || lia).
    reflexivity.
Qed.

Context {libm : Libm F}.

Lemma residual_term_reads_cell (A A' : buffer F) (dx dy t D c : F)
    (nx ny j i : Z) :
  A j i = A' j i ->
  residual_term A dx dy t D c nx ny j i =
  residual_term A' dx dy t D c nx ny j i.
Proof. intros H. unfold residual_term. now rewrite H. Qed.

Lemma ResidualSumOfSquares2D_reads_tile (A A' : buffer F)
    (dx dy t D c : F) (r : blocked_range2d) (acc : F) :
  (forall j i, in_tile r j i -> A j i = A' j i) ->
  ResidualSumOfSquares2D A dx dy t D c r acc =
  ResidualSumOfSquares2D A' dx dy t D c r acc.
Proof.
  intros HA. unfold ResidualSumOfSquares2D, for_range.
  apply iterate_ext_range. intros j sum Hj.
  apply iterate_ext_range. intros i sum' Hi.
  rewrite (@residual_term_reads_cell A A'); [reflexivity |].
  apply HA. unfold in_tile, range_size in *. lia.
Qed.

Lemma reduce_tiles_reads_range (A A' : buffer F) (dx dy t D c : F)
    (R : blocked_range2d) (s : schedule) :
  tiling R s ->
  (forall j i, in_tile R j i -> A j i = A' j i) ->
  forall acc,
    reduce_tiles (ResidualSumOfSquares2D A dx dy t D c) join (of_int 0) s acc =
    reduce_tiles (ResidualSumOfSquares2D A' dx dy t D c) join (of_int 0) s acc.
Proof.
  induction 1 as [r | r m st a b Hm _ IHa _ IHb | r m st a b Hm _ IHa _ IHb];
    intros HA acc.
  - cbn [reduce_tiles]. now apply ResidualSumOfSquares2D_reads_tile.
  - assert (Ha : forall acc,
      reduce_tiles (ResidualSumOfSquares2D A dx dy t D c) join (of_int 0) a acc =
      reduce_tiles (ResidualSumOfSquares2D A' dx dy t D c) join (of_int 0) a acc).
    { apply IHa. intros j i Hin. apply HA.
      unfold in_tile in *; cbn in *. lia. }
    assert (Hb : forall acc,
      reduce_tiles (ResidualSumOfSquares2D A dx dy t D c) join (of_int 0) b acc =
      reduce_tiles (ResidualSumOfSquares2D A' dx dy t D c) join (of_int 0) b acc).
    { apply IHb. intros j i Hin. apply HA.
      unfold in_tile in *; cbn in *. lia. }
    destruct st; cbn [reduce_tiles]; now rewrite ?Ha, ?Hb.
  - assert (Ha : forall acc,
      reduce_tiles (ResidualSumOfSquares2D A dx dy t D c) join (of_int 0) a acc =
      reduce_tiles (ResidualSumOfSquares2D A' dx dy t D c) join (of_int 0) a acc).
    { apply IHa. intros j i Hin. apply HA.
      unfold in_tile in *; cbn in *. lia. }
    assert (Hb : forall acc,
      reduce_tiles (ResidualSumOfSquares2D A dx dy t D c) join (of_int 0) b acc =
      reduce_tiles (ResidualSumOfSquares2D A' dx dy t D c) join (of_int 0) b acc).
    { apply IHb. intros j i Hin. apply HA.
      unfold in_tile in *; cbn in *. lia. }
    destruct st; cbn [reduce_tiles]; now rewrite ?Ha, ?Hb.
Qed.

(** X14: on a square grid [check_solution] reads the field at the
    interior cells only: two fields that agree there give the same
    residual, whatever their halo, the tiling and the arithmetic. *)
Theorem check_solution_reads_interior (sched : scheduler) (A A' : buffer F)
    (n : Z) (dx dy t D : F) (bc : buffer F) :
  tiling (interior_range n n) (sched (interior_range n n)) ->
  (forall j i, 1 <= j <= n - 2 -> 1 <= i <= n - 2 -> A j i = A' j i) ->
  check_solution sched A n n dx dy t D bc =
  check_solution sched A' n n dx dy t D bc.
Proof.
  intros Hs HA. unfold check_solution, parallel_reduce.
  destruct (range2d_empty (interior_range n n)); [reflexivity |].
  apply (@reduce_tiles_reads_range A A' dx dy t D (bc 1 0) _ _ Hs).
  intros j i Hin. unfold in_tile in Hin; cbn in Hin. apply HA; lia.
Qed.

End Footprints.

Lemma compute_convolution_reads_window_3 :
  tiling (interior_range 3 3) (serial (interior_range 3 3)) /\
  (forall j i : Z, (1 - 1 <= j <= 3 - 2 + 1)%Z -> (1 - 1 <= i <= 3 - 2 + 1)%Z ->
     ones64 j i =
     (fun j' i' : Z =>
        if ((0 <=? j') && (j' <=? 2) && (0 <=? i') && (i' <=? 2))%Z
        then of_int 1 else of_int 5) j i) /\
  (forall j i : Z,
     compute_convolution serial ones64 zeros64 ones64 3 3 1 j i =
     compute_convolution serial
       (fun j' i' : Z =>
          if ((0 <=? j') && (j' <=? 2) && (0 <=? i') && (i' <=? 2))%Z
          then of_int 1 else of_int 5)
       zeros64 ones64 3 3 1 j i).
Proof.
  assert (Ht : tiling (interior_range 3 3) (serial (interior_range 3 3)))
    by apply serial_tiling.
  assert (HA : forall j i : Z,
    (1 - 1 <= j <= 3 - 2 + 1)%Z -> (1 - 1 <= i <= 3 - 2 + 1)%Z ->
    ones64 j i =
    (fun j' i' : Z =>
       if ((0 <=? j') && (j' <=? 2) && (0 <=? i') && (i' <=? 2))%Z
       then of_int 1 else of_int 5) j i).
  { intros j i Hj Hi. cbv beta.
    replace (0 <=? j)%Z with true by (symmetry; apply Z.leb_le; lia).
    replace (j <=? 2)%Z with true by (symmetry; apply Z.leb_le; lia).
    replace (0 <=? i)%Z with true by (symmetry; apply Z.leb_le; lia).
    replace (i <=? 2)%Z with true by (symmetry; apply Z.leb_le; lia).
    reflexivity. }
  split; [exact Ht | split; [exact HA |]].
  exact (@compute_convolution_reads_window _ binary64 serial ones64 _
           zeros64 ones64 3 1 Ht HA).
Defined.

Lemma check_solution_reads_interior_3 :
  tiling (interior_range 3 3) (serial (interior_range 3 3)) /\
  (forall j i : Z, (1 <= j <= 3 - 2)%Z -> (1 <= i <= 3 - 2)%Z ->
     (fun _ _ : Z => 1%R) j i =
     (fun j' i' : Z => if ((j' =? 1) && (i' =? 1))%Z then 1%R else 9%R) j i) /\
  check_solution serial (fun _ _ => 1%R) 3 3 1%R 1%R 1%R 1%R (fun _ _ => 1%R) =
  check_solution serial
    (fun j' i' : Z => if ((j' =? 1) && (i' =? 1))%Z then 1%R else 9%R)
    3 3 1%R 1%R 1%R 1%R (fun _ _ => 1%R).
Proof.
  assert (Ht : tiling (interior_range 3 3) (serial (interior_range 3 3)))
    by apply serial_tiling.
  assert (HA : forall j i : Z, (1 <= j <= 3 - 2)%Z -> (1 <= i <= 3 - 2)%Z ->
    (fun _ _ : Z => 1%R) j i =
    (fun j' i' : Z => if ((j' =? 1) && (i' =? 1))%Z then 1%R else 9%R) j i).
  { intros j i Hj Hi. cbv beta.
    replace j with 1%Z by lia. replace i with 1%Z by lia. reflexivity. }
  split; [exact Ht | split; [exact HA |]].
  exact (@check_solution_reads_interior R exact_ops exact_libm serial
           (fun _ _ => 1%R) _ 3 1%R 1%R 1%R 1%R (fun _ _ => 1%R) Ht HA).
Defined.

(** ** The radius and the start of the range *)

Section ExactRadius.

Local Open Scope R_scope.

Lemma sum_from_zero (f : Z -> R) (n : nat) :
  forall k, (forall m, (k <= m < k + Z.of_nat n)%Z -> f m = 0) ->
    sum_from n k f = 0.
Proof.
  induction n as [| n IH]; intros k Hf; cbn [sum_from].
  - reflexivity.
  - rewrite Hf by lia. rewrite IH by (intros; apply Hf; lia). ring.
Qed.

Lemma corner_mask_0 : corner_mask 0%Z 0%Z = 1.
Proof. reflexivity. Qed.

Lemma corner_mask_other (mj mi : Z) :
  mj <> 0%Z \/ mi <> 0%Z -> corner_mask mj mi = 0.
Proof.
  intros H. unfold corner_mask.
  destruct (Z.eqb_spec mj 0), (Z.eqb_spec mi 0); cbn; try reflexivity. lia.
Qed.

(** With the mask that is 1 at [M[0][0]] only, the stencil sum is the
    field value at the first cell of the window. *)
Lemma convolve_cell_corner (A : buffer R) (nm j i : Z) :
  (0 <= nm)%Z ->
  convolve_cell A corner_mask nm j i = A (j - nm)%Z (i - nm)%Z.
Proof.
  intros Hnm. rewrite convolve_cell_stencil_sum.
  unfold stencil_sum, sum_over.
  replace (Z.to_nat (nm - - nm + 1)) with (S (Z.to_nat (2 * nm))) by lia.
  cbn [sum_from].
  replace (- nm + nm)%Z with 0%Z by lia.
  rewrite corner_mask_0.
  rewrite (@sum_from_zero _ (Z.to_nat (2 * nm)) (- nm + 1)%Z).
  - rewrite (@sum_from_zero _ (Z.to_nat (2 * nm)) (- nm + 1)%Z).
    + replace (j + - nm)%Z with (j - nm)%Z by lia.
      replace (i + - nm)%Z with (i - nm)%Z by lia. ring.
    + intros mj Hmj.
      rewrite corner_mask_other by lia.
      rewrite sum_from_zero; [ring |].
      intros mi Hmi. rewrite corner_mask_other by lia. ring.
  - intros mi Hmi. rewrite corner_mask_other by lia. ring.
Qed.

(** X15: the range of [compute_convolution] starts at row and column 1
    whatever the radius.  With the mask that is 1 at [M[0][0]] only, the
    cell [C[1][1]] of a square grid receives [A[1 - nm][1 - nm]]: at a
    radius of 2 or more the kernel reads before the first row of the
    buffer. *)
Theorem compute_convolution_reads_before_start (sched : scheduler)
    (A C : buffer R) (n nm : Z) :
  (0 <= nm)%Z -> (3 <= n)%Z ->
  tiling (interior_range n n) (sched (interior_range n n)) ->
  compute_convolution sched A C corner_mask n n nm 1%Z 1%Z =
  A (1 - nm)%Z (1 - nm)%Z.
Proof.
  intros Hnm Hn Hs.
  rewrite compute_convolution_square by (assumption || lia).
  now apply convolve_cell_corner.
Qed.

Lemma compute_convolution_reads_before_start_2 :
  (0 <= 2)%Z /\ (3 <= 5)%Z /\
  tiling (interior_range 5 5) (serial (interior_range 5 5)) /\
  compute_convolution serial
    (fun j i : Z => if ((j =? -1) && (i =? -1))%Z then 7 else 0)
    (fun _ _ => 0) corner_mask 5 5 2 1%Z 1%Z =
  (fun j i : Z => if ((j =? -1) && (i =? -1))%Z then 7 else 0)
    (1 - 2)%Z (1 - 2)%Z.
Proof.
  assert (Ht : tiling (interior_range 5 5) (serial (interior_range 5 5)))
    by apply serial_tiling.
  split; [lia | split; [lia | split; [exact Ht |]]].
  apply (@compute_convolution_reads_before_start serial
           (fun j i : Z => if ((j =? -1) && (i =? -1))%Z then 7 else 0)
           (fun _ _ => 0) 5 2); [lia | lia | exact Ht].
Defined.

End ExactRadius.

(** ** The analytical solution along the distance *)

Section ExactAnalytical.

Local Open Scope R_scope.

Lemma gauss_bounds (t : R) : 0 <= gauss t <= 1.
Proof.
  unfold gauss. split.
  - left. apply exp_pos.
  - rewrite <- exp_0.
    destruct (Req_dec (t * t) 0) as [E | E].
    + rewrite E, Ropp_0. lra.
    + left. apply exp_increasing. nra.
Qed.

(** The error function does not decrease. *)
Lemma Rerf_increasing (x y : R) : x <= y -> Rerf x <= Rerf y.
Proof.
  intros Hxy. unfold Rerf.
  assert (pr : Riemann_integrable gauss x y).
  { apply continuity_implies_RiemannInt; [exact Hxy |].
    intros t _. apply gauss_continuous. }
  rewrite <- (RiemannInt_P26 (gauss_integrable x) pr (gauss_integrable y)).
  assert (Hpos : 0 * (y - x) <= RiemannInt pr).
  { apply (RiemannInt_const_bound pr Hxy (l := 0) (u := 1)).
    intros t _. apply gauss_bounds. }
  assert (Hc : 0 < 2 / sqrt PI).
  { apply Rdiv_lt_0_compat; [lra |]. apply sqrt_lt_R0, PI_RGT_0. }
  nra.
Qed.

(** X16: in exact arithmetic, for a concentration [chi >= 0] and
    [D t > 0], [analytical_value] is [chi] at distance 0 and does not
    increase with the distance. *)
Theorem analytical_value_decreasing (x x' t D chi : R) :
  0 <= chi -> 0 < D * t -> x <= x' ->
  analytical_value 0 t D chi = chi /\
  analytical_value x' t D chi <= analytical_value x t D chi.
Proof.
  intros Hchi HDt Hx. unfold analytical_value.
  cbn [of_int exact_ops exact_libm erf fadd fsub fmul fdiv fsqrt].
  assert (Hs : 0 < sqrt (4 * D * t)) by (apply sqrt_lt_R0; lra).
  split.
  - replace (0 / sqrt (4 * D * t)) with 0 by (unfold Rdiv; ring).
    rewrite Rerf_0. ring.
  - assert (Harg : x / sqrt (4 * D * t) <= x' / sqrt (4 * D * t)).
    { unfold Rdiv. apply Rmult_le_compat_r; [| exact Hx].
      left. now apply Rinv_0_lt_compat. }
    pose proof (Rerf_increasing Harg). nra.
Qed.

Lemma analytical_value_decreasing_unit :
  0 <= 1 /\ 0 < 1 * 1 /\ 0 <= 1 /\
  analytical_value 0 1 1 1 = 1 /\
  analytical_value 1 1 1 1 <= analytical_value 0 1 1 1.
Proof.
  split; [lra | split; [lra | split; [lra |]]].
  apply (@analytical_value_decreasing 0 1 1 1 1); lra.
Defined.

End ExactAnalytical.

(** ** The analytical solution at time zero, in binary64 *)

Lemma sqrt_zero64 (z : PrimFloat.float) :
  is_zero64 z = true -> is_zero64 (PrimFloat.sqrt z) = true.
Proof.
  unfold is_zero64. rewrite FloatAxioms.sqrt_spec.
  destruct (FloatOps.Prim2SF z); intros H; try discriminate; reflexivity.
Qed.

Lemma div_zero_zero64 (x z : PrimFloat.float) :
  is_zero64 x = true -> is_zero64 z = true ->
  is_nan64 (PrimFloat.div x z) = true.
Proof.
  unfold is_zero64, is_nan64. rewrite FloatAxioms.div_spec.
  destruct (FloatOps.Prim2SF x), (FloatOps.Prim2SF z);
    intros Hx Hz; try discriminate; reflexivity.
Qed.

Lemma div_finite_zero64 (x z : PrimFloat.float) :
  is_finite64 x = true -> is_zero64 x = false -> is_zero64 z = true ->
  is_infinity64 (PrimFloat.div x z) = true.
Proof.
  unfold is_finite64, is_zero64, is_infinity64. rewrite FloatAxioms.div_spec.
  destruct (FloatOps.Prim2SF x), (FloatOps.Prim2SF z);
    intros Hf Hx Hz; try discriminate; reflexivity.
Qed.

(** X17: in binary64, at an elapsed time of zero and a finite [4 D],
    [analytical_value] divides the distance by zero: [erf] is handed a
    NaN when the distance is zero, and an infinity when the distance is
    finite and not zero. *)
Theorem analytical_value_zero_time
    (erf64 : PrimFloat.float -> PrimFloat.float)
    (x t D chi : PrimFloat.float) :
  is_zero64 t = true -> is_finite64 (of_int 4 *! D)%fp = true ->
  analytical_value (libm := binary64_libm erf64) x t D chi =
    (chi *! (of_int 1 -! erf64 (x /! fsqrt (of_int 4 *! D *! t))))%fp /\
  (is_zero64 x = true ->
     is_nan64 (x /! fsqrt (of_int 4 *! D *! t))%fp = true) /\
  (is_finite64 x = true -> is_zero64 x = false ->
     is_infinity64 (x /! fsqrt (of_int 4 *! D *! t))%fp = true).
Proof.
  intros Ht HD.
  assert (Hz : is_zero64 (fsqrt (of_int 4 *! D *! t))%fp = true).
  { apply sqrt_zero64. now apply mul_finite_zero. }
  split; [reflexivity | split].
  - intros Hx. now apply div_zero_zero64.
  - intros Hf Hx. now apply div_finite_zero64.
Qed.

Lemma analytical_value_zero_time_unit :
  is_zero64 (of_int 0) = true /\
  is_finite64 (of_int 4 *! of_int 1)%fp = true /\
  analytical_value (libm := binary64_libm (fun x => x))
      (of_int 0) (of_int 0) (of_int 1) (of_int 1) =
    (of_int 1 *!
     (of_int 1 -!
      (fun x => x)
        (of_int 0 /! fsqrt (of_int 4 *! of_int 1 *! of_int 0))))%fp /\
  (is_zero64 (of_int 0) = true ->
     is_nan64 (of_int 0 /! fsqrt (of_int 4 *! of_int 1 *! of_int 0))%fp
       = true) /\
  (is_finite64 (of_int 0) = true -> is_zero64 (of_int 0) = false ->
     is_infinity64 (of_int 0 /! fsqrt (of_int 4 *! of_int 1 *! of_int 0))%fp
       = true).
Proof.
  split; [reflexivity | split; [reflexivity |]].
  apply (@analytical_value_zero_time (fun x => x)
           (of_int 0) (of_int 0) (of_int 1) (of_int 1));
    reflexivity.
Defined.

(** ** The five-point Laplacian *)

Section ExactFivePoint.

Local Open Scope R_scope.

(** X18: in exact arithmetic, with the mask [set_mask] builds on a buffer
    with zero corners, [compute_convolution] leaves at every interior
    cell of a square grid the five-point Laplacian: the second difference
    along [j] over [dy^2] plus the second difference along [i] over
    [dx^2]; the four diagonal neighbours do not enter. *)
Theorem compute_convolution_five_point (n : Z) (dx dy : R)
    (A C M : buffer R) (sched : scheduler) (j i : Z) :
  0 < dx -> 0 < dy -> corners_zero M ->
  tiling (interior_range n n) (sched (interior_range n n)) ->
  (1 <= j <= n - 2)%Z -> (1 <= i <= n - 2)%Z ->
  compute_convolution sched A C (snd (set_mask dx dy M)) n n
    (fst (set_mask dx dy M)) j i =
  (A (j - 1)%Z i - 2 * A j i + A (j + 1)%Z i) / (dy * dy)
  + (A j (i - 1)%Z - 2 * A j i + A j (i + 1)%Z) / (dx * dx).
Proof.
  intros Hdx Hdy (H00 & H02 & H20 & H22) Hs Hj Hi.
  rewrite compute_convolution_square by assumption.
  change (fst (set_mask dx dy M)) with 1%Z.
  rewrite convolve_cell_exact.
  destruct (set_mask_assigned dx dy M) as (-> & -> & -> & -> & ->).
  destruct (set_mask_corners dx dy M) as (-> & -> & -> & ->).
  rewrite H00, H02, H20, H22.
  cbn [of_int exact_ops fadd fmul fdiv].
  field. split; lra.
Qed.

Lemma compute_convolution_five_point_unit :
  0 < 1 /\ 0 < 1 /\ corners_zero (fun _ _ => 0) /\
  tiling (interior_range 3 3) (serial (interior_range 3 3)) /\
  (1 <= 1 <= 3 - 2)%Z /\ (1 <= 1 <= 3 - 2)%Z /\
  compute_convolution serial spike_1_2 (fun _ _ => 0)
    (snd (set_mask 1 1 (fun _ _ => 0))) 3 3
    (fst (set_mask 1 1 (fun _ _ => 0))) 1%Z 1%Z =
  (spike_1_2 (1 - 1)%Z 1%Z - 2 * spike_1_2 1%Z 1%Z + spike_1_2 (1 + 1)%Z 1%Z)
    / (1 * 1)
  + (spike_1_2 1%Z (1 - 1)%Z - 2 * spike_1_2 1%Z 1%Z + spike_1_2 1%Z (1 + 1)%Z)
    / (1 * 1).
Proof.
  assert (Hc : corners_zero (fun _ _ : Z => 0)) by (repeat split).
  assert (Ht : tiling (interior_range 3 3) (serial (interior_range 3 3)))
    by apply serial_tiling.
  split; [lra | split; [lra | split; [exact Hc | split; [exact Ht |]]]].
  split; [lia | split; [lia |]].
  apply (@compute_convolution_five_point 3 1 1 spike_1_2 (fun _ _ => 0)
           (fun _ _ => 0) serial 1 1);
    [lra | lra | exact Hc | exact Ht | lia | lia].
Defined.

End ExactFivePoint.
